(** * ZeppelinBot: the Automod trigger registry and the Utility clean command

    A shallow embedding of

    - [backend/src/plugins/Automod/triggers/availableTriggers.ts]
    (module [Triggers]),
    - [backend/src/plugins/Utility/commands/CleanCmd.ts] (module [Clean]),

    together with the sliding-window spam counter that the specification
    describes (module [SpamTracker]).

    JavaScript objects used as dictionaries are [gmap string _]; the
    [number] argument of the clean command is a rational; timestamps are
    integers (milliseconds); strings are [string]. *)

From Stdlib Require Import QArith Qround Lqa.
From stdpp Require Import gmap strings list fin_maps pretty sorting.

Local Open Scope string_scope.
Local Open Scope list_scope.
Local Open Scope stdpp_scope.

(* ===================================================================== *)
(** * The trigger registry *)
(* ===================================================================== *)

Module Triggers.

(** The error of a failed registry lookup (specification, sections 4.1
    and 7). *)
Inductive RegistryError :=
| UnknownTriggerKind (kind : string).

Section Registry.

(** [AutomodTriggerBlueprint] is declared in [../helpers] and the io-ts
    codec type in the [io-ts] package; the sixteen blueprints are the
    default exports of the sixteen modules imported at the top of
    [availableTriggers.ts]. None of these files is part of the two
    sources, so they are parameters of the development. *)
Variable AutomodTriggerBlueprint : Type.
Variable IoType : Type.
Variable configType : AutomodTriggerBlueprint → IoType.

Variables MatchWordsTrigger MatchRegexTrigger MatchInvitesTrigger
          MatchLinksTrigger MatchAttachmentTypeTrigger MemberJoinTrigger
          RoleAddedTrigger RoleRemovedTrigger : AutomodTriggerBlueprint.
Variables MessageSpamTrigger MentionSpamTrigger LinkSpamTrigger
          AttachmentSpamTrigger EmojiSpamTrigger LineSpamTrigger
          CharacterSpamTrigger MemberJoinSpamTrigger : AutomodTriggerBlueprint.

(** [export const availableTriggers: Record<string, AutomodTriggerBlueprint<any, any>> = { ... }] *)
Definition availableTriggers : gmap string AutomodTriggerBlueprint :=
    list_to_map [
    ("match_words", MatchWordsTrigger);
    ("match_regex", MatchRegexTrigger);
    ("match_invites", MatchInvitesTrigger);
    ("match_links", MatchLinksTrigger);
    ("match_attachment_type", MatchAttachmentTypeTrigger);
    ("member_join", MemberJoinTrigger);
    ("role_added", RoleAddedTrigger);
    ("role_removed", RoleRemovedTrigger);

    ("message_spam", MessageSpamTrigger);
    ("mention_spam", MentionSpamTrigger);
    ("link_spam", LinkSpamTrigger);
    ("attachment_spam", AttachmentSpamTrigger);
    ("emoji_spam", EmojiSpamTrigger);
    ("line_spam", LineSpamTrigger);
    ("character_spam", CharacterSpamTrigger);
    ("member_join_spam", MemberJoinSpamTrigger)
    ].

(** [export const AvailableTriggers = t.type({ ... })]: the [props] of the
    io-ts interface type, one codec per key. *)
Definition AvailableTriggers : gmap string IoType :=
    list_to_map [
    ("match_words", configType MatchWordsTrigger);
    ("match_regex", configType MatchRegexTrigger);
    ("match_invites", configType MatchInvitesTrigger);
    ("match_links", configType MatchLinksTrigger);
    ("match_attachment_type", configType MatchAttachmentTypeTrigger);
    ("member_join", configType MemberJoinTrigger);
    ("role_added", configType RoleAddedTrigger);
    ("role_removed", configType RoleRemovedTrigger);

    ("message_spam", configType MessageSpamTrigger);
    ("mention_spam", configType MentionSpamTrigger);
    ("link_spam", configType LinkSpamTrigger);
    ("attachment_spam", configType AttachmentSpamTrigger);
    ("emoji_spam", configType EmojiSpamTrigger);
    ("line_spam", configType LineSpamTrigger);
    ("character_spam", configType CharacterSpamTrigger);
    ("member_join_spam", configType MemberJoinSpamTrigger)
    ].

(** The two trigger families, as the specification lists them (4.1). *)
Definition instantaneous_kinds : list string :=
    ["match_words"; "match_regex"; "match_invites"; "match_links";
     "match_attachment_type"; "member_join"; "role_added"; "role_removed"].

Definition windowed_kinds : list string :=
    ["message_spam"; "mention_spam"; "link_spam"; "attachment_spam";
     "emoji_spam"; "line_spam"; "character_spam"; "member_join_spam"].

(** Modelled from the spec: the registry accessor [get(kind)] of section
    4.1 ("[get(kind) -> TriggerSpec] fails with [UnknownTriggerKind] if
    absent"). The source exports only the registry object; the code that
    looks a configured trigger name up in it lives in the Automod plugin,
    outside the two source files. The lookup itself is over the registry
    above. *)
Definition get (kind : string) : RegistryError + AutomodTriggerBlueprint :=
    match availableTriggers !! kind with
    | Some spec => inr spec
    | None => inl (UnknownTriggerKind kind)
    end.

(** The codec a raw trigger configuration of kind [kind] is checked
    against: the field of [AvailableTriggers] under that key. *)
Definition schema_of (kind : string) : option IoType :=
    AvailableTriggers !! kind.

(** ** The registry and the schema *)

(** C1: the registry maps exactly the sixteen trigger kinds of the
    specification, the eight instantaneous and the eight windowed ones,
    each to the blueprint of its module, and has no other key. *)
Theorem availableTriggers_keys :
  dom availableTriggers = list_to_set (instantaneous_kinds ++ windowed_kinds)
  ∧ size availableTriggers = 16
  ∧ length instantaneous_kinds = 8 ∧ length windowed_kinds = 8
  ∧ NoDup (instantaneous_kinds ++ windowed_kinds)
  ∧ (∀ kind, is_Some (availableTriggers !! kind)
             ↔ kind ∈ instantaneous_kinds ++ windowed_kinds)
  ∧ map_to_list availableTriggers ≡ₚ
      [("match_words", MatchWordsTrigger);
       ("match_regex", MatchRegexTrigger);
       ("match_invites", MatchInvitesTrigger);
       ("match_links", MatchLinksTrigger);
       ("match_attachment_type", MatchAttachmentTypeTrigger);
       ("member_join", MemberJoinTrigger);
       ("role_added", RoleAddedTrigger);
       ("role_removed", RoleRemovedTrigger);
       ("message_spam", MessageSpamTrigger);
       ("mention_spam", MentionSpamTrigger);
       ("link_spam", LinkSpamTrigger);
       ("attachment_spam", AttachmentSpamTrigger);
       ("emoji_spam", EmojiSpamTrigger);
       ("line_spam", LineSpamTrigger);
       ("character_spam", CharacterSpamTrigger);
       ("member_join_spam", MemberJoinSpamTrigger)].
Proof.
  assert (Hnodup : NoDup (instantaneous_kinds ++ windowed_kinds)).
  { apply (bool_decide_unpack _). by vm_compute. }
  assert (Hdom : dom availableTriggers
                 = list_to_set (instantaneous_kinds ++ windowed_kinds))
    by reflexivity.
  repeat split; try done.
  - intros H. apply elem_of_dom in H. rewrite Hdom in H.
    by apply elem_of_list_to_set in H.
  - intros H. apply elem_of_dom. rewrite Hdom. by apply elem_of_list_to_set.
  - apply map_to_list_to_map. exact Hnodup.
Qed.

(** C2: the schema object has the keys of the registry, and the codec
    under each key is the [configType] of the blueprint registered under
    that key: the raw configuration of a registered kind is checked
    against the schema of its own kind. *)
Theorem AvailableTriggers_schema :
  dom AvailableTriggers = dom availableTriggers
  ∧ (∀ kind, AvailableTriggers !! kind = configType <$> availableTriggers !! kind)
  ∧ (∀ kind blueprint, availableTriggers !! kind = Some blueprint →
                       schema_of kind = Some (configType blueprint)).
Proof.
  assert (Hfmap : AvailableTriggers = configType <$> availableTriggers)
    by reflexivity.
  split; [|split].
  - rewrite Hfmap. apply dom_fmap_L.
  - intros kind. rewrite Hfmap. apply lookup_fmap.
  - intros kind blueprint H. unfold schema_of.
    by rewrite Hfmap, lookup_fmap, H.
Qed.

(** C3: looking up a kind that the registry does not hold fails with
    [UnknownTriggerKind]; it does not yield a blueprint. *)
Theorem get_unknown kind :
  kind ∉ dom availableTriggers →
  get kind = inl (UnknownTriggerKind kind)
  ∧ ∀ blueprint, get kind ≠ inr blueprint.
Proof.
  intros H. apply not_elem_of_dom in H. unfold get. rewrite H. done.
Qed.

End Registry.

(** A registry of named blueprints, and a lookup that fails on it. *)
Lemma get_unknown_witness :
  ("match_word" ∉ dom (availableTriggers string
      "MatchWordsTrigger" "MatchRegexTrigger" "MatchInvitesTrigger"
      "MatchLinksTrigger" "MatchAttachmentTypeTrigger" "MemberJoinTrigger"
      "RoleAddedTrigger" "RoleRemovedTrigger" "MessageSpamTrigger"
      "MentionSpamTrigger" "LinkSpamTrigger" "AttachmentSpamTrigger"
      "EmojiSpamTrigger" "LineSpamTrigger" "CharacterSpamTrigger"
      "MemberJoinSpamTrigger"))
  ∧ (get string
      "MatchWordsTrigger" "MatchRegexTrigger" "MatchInvitesTrigger"
      "MatchLinksTrigger" "MatchAttachmentTypeTrigger" "MemberJoinTrigger"
      "RoleAddedTrigger" "RoleRemovedTrigger" "MessageSpamTrigger"
      "MentionSpamTrigger" "LinkSpamTrigger" "AttachmentSpamTrigger"
      "EmojiSpamTrigger" "LineSpamTrigger" "CharacterSpamTrigger"
      "MemberJoinSpamTrigger" "match_word"
     = inl (UnknownTriggerKind "match_word")).
Proof.
  assert (H : "match_word" ∉ dom (availableTriggers string
      "MatchWordsTrigger" "MatchRegexTrigger" "MatchInvitesTrigger"
      "MatchLinksTrigger" "MatchAttachmentTypeTrigger" "MemberJoinTrigger"
      "RoleAddedTrigger" "RoleRemovedTrigger" "MessageSpamTrigger"
      "MentionSpamTrigger" "LinkSpamTrigger" "AttachmentSpamTrigger"
      "EmojiSpamTrigger" "LineSpamTrigger" "CharacterSpamTrigger"
      "MemberJoinSpamTrigger")).
  { apply not_elem_of_dom. reflexivity. }
  split; [exact H|]. exact (proj1 (get_unknown _ _ _ _ _ _ _ _ _ _ _ _ _ _ _ _ _ _ H)).
Defined.

End Triggers.

(* ===================================================================== *)
(** * The clean command *)
(* ===================================================================== *)

Module Clean.

(** ** Constants

    [SECONDS] and [DAYS] are imported from [../../../utils]. *)

(** Modelled from the spec: the time unit [SECONDS] of [utils], a module
    that is not among the source files. Durations are in milliseconds, the
    unit of [setTimeout] and of [msg.timestamp]. *)
Definition SECONDS : Z := 1000.

(** Modelled from the spec: the time unit [DAYS] of [utils], see
    [SECONDS]. *)
Definition DAYS : Z := 24 * (60 * (60 * SECONDS)).

Definition MAX_CLEAN_COUNT : Z := 150.
Definition MAX_CLEAN_TIME : Z := 1 * DAYS.
Definition CLEAN_COMMAND_DELETE_DELAY : Z := 5 * SECONDS.

(** ** Data *)

(** The fields of [SavedMessage] the command reads. [sm_content] is
    [data.content]; [sm_posted_at] is [moment.utc(posted_at).valueOf()]. *)
Record SavedMessage := {
  sm_id : string;
  sm_user_id : string;
  sm_is_bot : bool;
  sm_content : option string;
  sm_posted_at : Z;
}.

(** A guild channel; [ch_is_text] is [instanceof TextChannel]. *)
Record Channel := {
  ch_id : string;
  ch_is_text : bool;
}.

(** The invoking message [msg]. *)
Record Message := {
  msg_id : string;
  msg_channel : Channel;
  msg_author : string;
  msg_timestamp : Z;
}.

(** The parsed arguments. [ct.number()] yields any finite number that
    [parseFloat] reads, so [count] is a rational; [ct.userId] and
    [ct.channelId] yield a snowflake (never the empty string) or the
    option is absent. *)
Record Args := {
  count : Q;
  user : option string;
  channel : option string;
  bots : bool;
  has_invites : bool;
}.

(** What the command reads from [pluginData]: the guild's channels, the
    [can_clean] permission of a user in a channel
    ([config.getMatchingConfig({userId, channelId}).can_clean === true]),
    the archive service, and the id of the message the bot posts in answer
    (the [Message] that [sendSuccessMessage] / [sendErrorMessage] resolve
    to). *)
Record PluginData := {
  guild_channels : gmap string Channel;
  can_clean : string → string → bool;
  createFromSavedMessages : list SavedMessage → string;
  getUrl : string → string → string;
  getBaseUrl : string;
  response_id : string;
}.

Inductive LogType := MESSAGE_DELETE | MESSAGE_DELETE_BULK | CLEAN.

(** [m.delete().catch(noop)]: the deletion of message [m], a failure of
    which is swallowed. *)
Inductive TimerAction :=
| DeleteCatchNoop (message_id : string).

(** The calls the command makes on its collaborators, in order. A timer is
    [setTimeout(callback, delay)]: the handle is dropped, so the timer can
    be neither awaited nor cancelled. *)
Inductive Effect :=
| SendErrorMessage (channel_id body : string)
| SendSuccessMessage (channel_id body : string)
| GetLatestByChannelBeforeId (channelId beforeId : string) (limit : Q)
| IgnoreLog (type : LogType) (id : string)
| DeleteMessages (channelId : string) (ids : list string)
| MarkBulkAsDeleted (ids : list string)
| CreateFromSavedMessages (savedMessages : list SavedMessage)
| LogClean (moderator channel_id : string) (cleaned : nat) (archiveUrl : string)
| SetTimeout (callback : list TimerAction) (delay : Z).

(** How a call of [run] stands once the store's answers are used up. *)
Inductive Status :=
| Returned
| AwaitingStore
| Threw.

(** ** JavaScript primitives *)

Definition Qltb (x y : Q) : bool := negb (Qle_bool y x).

Definition of_length {A} (l : list A) : Q := inject_Z (Z.of_nat (length l)).

(** [ToIntegerOrInfinity] on a finite number: truncation towards zero. *)
Definition toIntegerOrInfinity (q : Q) : Z := Z.quot (Qnum q) (Z.pos (Qden q)).

(** [l.slice(0, end)] *)
Definition slice0 {A} (l : list A) (end_ : Q) : list A :=
  let len := Z.of_nat (length l) in
  let relativeEnd := toIntegerOrInfinity end_ in
  let final := if (relativeEnd <? 0)%Z then Z.max (len + relativeEnd) 0
               else Z.min relativeEnd len in
  take (Z.to_nat final) l.

(** [s || ""] *)
Definition or_empty (s : option string) : string := default "" s.

Definition newline : string := String (Ascii.ascii_of_nat 10) EmptyString.

(** ** [cleanMessages] *)

(** The comparator [(a, b) => (a.id > b.id ? 1 : -1)] puts [a] before [b]
    when [a.id > b.id] is false; ids are compared as strings. *)
Definition id_not_after (a b : SavedMessage) : Prop :=
  String.ltb (sm_id b) (sm_id a) = false.

#[global] Instance id_not_after_dec a b : Decision (id_not_after a b).
Proof. unfold id_not_after. apply _. Defined.

(** [Array.from(savedMessages).sort(cmp)]. The ids of stored messages are
    distinct, the comparator is then a strict total order and every sorting
    algorithm returns the same array. *)
Definition sort_by_id (savedMessages : list SavedMessage) : list SavedMessage :=
  merge_sort id_not_after savedMessages.

(** [cleanMessages(pluginData, channel, savedMessages, mod)]: the effects
    and the result [{ archiveUrl }]; [None] when [savedMessages[0].id]
    throws because the array is empty. ([mod] is an operator of Rocq's
    arithmetic notations, the argument is named [moderator].) *)
Definition cleanMessages (pluginData : PluginData) (channel : Channel)
    (savedMessages : list SavedMessage) (moderator : string)
  : option (list Effect * string) :=
  match savedMessages with
  | [] => None
  | first :: _ =>
    let sorted := sort_by_id savedMessages in
    let idsToDelete := map sm_id sorted in
    let archiveId := createFromSavedMessages pluginData sorted in
    let archiveUrl := getUrl pluginData (getBaseUrl pluginData) archiveId in
    Some ([IgnoreLog MESSAGE_DELETE (sm_id first);
           IgnoreLog MESSAGE_DELETE_BULK (sm_id first)]
          ++ map (IgnoreLog MESSAGE_DELETE) idsToDelete
          ++ [IgnoreLog MESSAGE_DELETE_BULK (default "" (head idsToDelete));
              DeleteMessages (ch_id channel) idsToDelete;
              MarkBulkAsDeleted idsToDelete;
              CreateFromSavedMessages sorted;
              LogClean moderator (ch_id channel) (length sorted) archiveUrl],
          archiveUrl)
  end.

(** ** Awaited calls that reject *)

(** The calls that [run] and [cleanMessages] [await]: the fetches of the
    store, [deleteMessages], [markBulkAsDeleted],
    [createFromSavedMessages] and the reply ([sendSuccessMessage], or the
    [sendErrorMessage] of line 130). [ignoreLog], [logs.log] and
    [setTimeout] are plain calls. *)
Definition awaited (e : Effect) : bool :=
  match e with
  | IgnoreLog _ _ | LogClean _ _ _ _ | SetTimeout _ _ => false
  | _ => true
  end.

(** An awaited call that rejects makes the [async] function reject at
    that point, there being no [try]: the call is the last thing it did.
    [rejects i] tells whether the call at position [i] of the trace
    rejects; the result is the trace up to the first awaited call that
    does, and whether there was one. *)
Fixpoint until_rejection (rejects : nat → bool) (i : nat) (trace : list Effect)
  : list Effect * bool :=
  match trace with
  | [] => ([], false)
  | e :: rest =>
    if awaited e && rejects i then ([e], true)
    else
      let '(done, rejected) := until_rejection rejects (S i) rest in
      (e :: done, rejected)
  end.

(** How a call of [run] ends when its collaborators may fail: as [run]
    does when they do not, or rejected. *)
Inductive Outcome :=
| Settled (status : Status)
| Rejected.

(** ** [CleanCmd.run] *)

Section Run.

(** [getInviteCodesInString] is imported from [../../../utils]. *)
Variable getInviteCodesInString : string → list string.

Variable msg : Message.
Variable args : Args.
Variable pluginData : PluginData.

(** [args.channel ? pluginData.guild.channels.get(args.channel) : msg.channel] *)
Definition targetChannel : option Channel :=
  match channel args with
  | Some c => guild_channels pluginData !! c
  | None => Some (msg_channel msg)
  end.

Definition timeCutoff : Z := (msg_timestamp msg - MAX_CLEAN_TIME)%Z.

(** The callback given to [potentialMessagesToClean.filter]. *)
Definition keep (message : SavedMessage) : bool :=
  if match user args with
     | Some u => negb (String.eqb (sm_user_id message) u)
     | None => false
     end then false
  else if bots args && negb (sm_is_bot message) then false
  else if has_invites args
          && (length (getInviteCodesInString (or_empty (sm_content message))) =? 0)%nat
       then false
  else if (sm_posted_at message <? timeCutoff)%Z then false
  else true.

(** The variables of the paging loop. *)
Record LoopState := {
  messagesToClean : list SavedMessage;
  beforeId : string;
}.

Inductive Control := Break | Next.

(** One pass through the body of the [while], on the batch
    [potentialMessagesToClean] that the store answered with: the state at
    the end of the body, and whether the body left through a [break]. *)
Definition loop_body (s : LoopState)
    (potentialMessagesToClean : list SavedMessage) : LoopState * Control :=
  if (length potentialMessagesToClean =? 0)%nat then (s, Break)
  else
    match last potentialMessagesToClean with
    | None => (s, Break) (* not reached: the batch is not empty *)
    | Some oldest =>
      let filtered := List.filter keep potentialMessagesToClean in
      let remaining := (count args - of_length (messagesToClean s))%Q in
      let withoutOverflow := slice0 filtered remaining in
      let s' := {| messagesToClean := messagesToClean s ++ withoutOverflow;
                   beforeId := sm_id oldest |} in
      (s', if (sm_posted_at oldest <? timeCutoff)%Z then Break else Next)
    end.

(** One answered fetch of the loop: the state when the fetch was issued,
    the request, the batch, and the outcome of the body. *)
Record Iteration := {
  it_before : LoopState;
  it_fetch : Effect;
  it_batch : list SavedMessage;
  it_after : LoopState;
  it_control : Control;
}.

Inductive LoopResult :=
| Finished (s : LoopState)
| Awaiting (s : LoopState) (fetch : Effect).

(** The request of [getLatestByChannelBeforeId(targetChannel.id, beforeId, args.count)]. *)
Definition fetch_of (targetId : string) (s : LoopState) : Effect :=
  GetLatestByChannelBeforeId targetId (beforeId s) (count args).

(** The [while] loop, run against the successive answers [store] of the
    message store. Each pass awaits one answer; when the answers are used
    up before the loop is left, the loop is still waiting for the store. *)
Fixpoint clean_loop (targetId : string) (s : LoopState)
    (store : list (list SavedMessage)) : list Iteration * LoopResult :=
  if Qltb (of_length (messagesToClean s)) (count args) then
    match store with
    | [] => ([], Awaiting s (fetch_of targetId s))
    | batch :: store' =>
      let '(s', control) := loop_body s batch in
      let it := {| it_before := s; it_fetch := fetch_of targetId s;
                   it_batch := batch; it_after := s';
                   it_control := control |} in
      match control with
      | Break => ([it], Finished s')
      | Next =>
        let '(its, result) := clean_loop targetId s' store' in
        (it :: its, result)
      end
    end
  else ([], Finished s).

Definition initial : LoopState :=
  {| messagesToClean := []; beforeId := msg_id msg |}.

(** [`Cleaned ${n} ${n === 1 ? "message" : "messages"}`] *)
Definition cleaned_text (n : nat) : string :=
  "Cleaned " +:+ pretty n +:+ " " +:+ (if (n =? 1)%nat then "message" else "messages").

(** [responseText] once the messages are cleaned. *)
Definition responseText (target : Channel) (cleaned : nat) (archiveUrl : string)
  : string :=
  let text := cleaned_text cleaned in
  if negb (String.eqb (ch_id target) (ch_id (msg_channel msg))) then
    text +:+ " in <#" +:+ ch_id target +:+ ">" +:+ newline +:+ archiveUrl
  else text.

(** [setTimeout(() => { msg.delete().catch(noop); responseMsg.delete().catch(noop); }, CLEAN_COMMAND_DELETE_DELAY)] *)
Definition delayed_deletion : Effect :=
  SetTimeout [DeleteCatchNoop (msg_id msg);
              DeleteCatchNoop (response_id pluginData)]
             CLEAN_COMMAND_DELETE_DELAY.

(** The last statement of [run]. *)
Definition timer_of (target : Channel) : list Effect :=
  if String.eqb (ch_id target) (ch_id (msg_channel msg))
  then [delayed_deletion] else [].

(** The part of [run] after the loop (from [let responseMsg]). *)
Definition respond (target : Channel) (cleaned : list SavedMessage)
  : list Effect * Status :=
  if (0 <? length cleaned)%nat then
    match cleanMessages pluginData target cleaned (msg_author msg) with
    | None => ([], Threw) (* not reached: [cleaned] is not empty *)
    | Some (effects, archiveUrl) =>
      (effects
       ++ [SendSuccessMessage (ch_id (msg_channel msg))
             (responseText target (length cleaned) archiveUrl)]
       ++ timer_of target, Returned)
    end
  else
    ([SendErrorMessage (ch_id (msg_channel msg)) "Found no messages to clean!"]
     ++ timer_of target, Returned).

(** [run({ message: msg, args, pluginData })], against the answers [store]
    of the message store. *)
Definition run (store : list (list SavedMessage)) : list Effect * Status :=
  if Qltb (inject_Z MAX_CLEAN_COUNT) (count args) || Qle_bool (count args) 0 then
    ([SendErrorMessage (ch_id (msg_channel msg))
        ("Clean count must be between 1 and " +:+ pretty MAX_CLEAN_COUNT)],
     Returned)
  else
    match targetChannel with
    | None =>
      ([SendErrorMessage (ch_id (msg_channel msg)) "Invalid channel specified"],
       Returned)
    | Some target =>
      if negb (ch_is_text target) then
        ([SendErrorMessage (ch_id (msg_channel msg)) "Invalid channel specified"],
         Returned)
      else if negb (String.eqb (ch_id target) (ch_id (msg_channel msg)))
              && negb (can_clean pluginData (msg_author msg) (ch_id target)) then
        ([SendErrorMessage (ch_id (msg_channel msg))
            "Missing permissions to use clean on that channel"],
         Returned)
      else
        let '(its, result) := clean_loop (ch_id target) initial store in
        match result with
        | Awaiting _ fetch => (map it_fetch its ++ [fetch], AwaitingStore)
        | Finished s =>
          let '(effects, status) := respond target (messagesToClean s) in
          (map it_fetch its ++ effects, status)
        end
    end.

(** ** Statements

    The vocabulary of the properties proved below. *)

(** The loop variables when the loop was left, or where it waits. *)
Definition state_of (result : LoopResult) : LoopState :=
  match result with Finished s => s | Awaiting s _ => s end.

(** The fetch the loop still waits for. *)
Definition pending_fetch (result : LoopResult) : list Effect :=
  match result with Finished _ => [] | Awaiting _ fetch => [fetch] end.

(** The last message of the batch, the oldest one when the store answers
    newest first, was posted before the cutoff. *)
Definition oldest_expired (batch : list SavedMessage) : Prop :=
  ∃ oldest, last batch = Some oldest ∧ (sm_posted_at oldest < timeCutoff)%Z.

(** A batch as the store answers: newest message first. *)
Definition newest_first (batch : list SavedMessage) : Prop :=
  StronglySorted (λ a b, (sm_posted_at b ≤ sm_posted_at a)%Z) batch.

(** The three ways out of the loop after a pass: the batch was empty, its
    oldest message is too old, or [args.count] messages are collected. *)
Definition stop_condition (it : Iteration) : Prop :=
  it_batch it = []
  ∨ oldest_expired (it_batch it)
  ∨ (count args <= of_length (messagesToClean (it_after it)))%Q.

(** Pass [i] was the last one and the loop was left after it. *)
Definition stopped_after (i : nat) (its : list Iteration) (result : LoopResult) : Prop :=
  S i = length its ∧ ∃ s, result = Finished s.

(** The cursor after a pass: the id of the last message of a batch that is
    not empty. *)
Definition next_cursor (cursor : string) (batch : list SavedMessage) : string :=
  match last batch with Some oldest => sm_id oldest | None => cursor end.

(** What the passes [its] of the loop, started in [s0] against the answers
    [store], and its [result] owe to the paging protocol: every request is
    for the target channel, the cursor of the moment and [args.count]
    ([pc_request], [pc_pending]); pass [i] consumes answer [i]
    ([pc_batch]); the states are chained from [s0] ([pc_first], [pc_chain],
    [pc_last]) and the cursor moves by [next_cursor] ([pc_advance]); the
    loop is left after a pass exactly on [stop_condition] ([pc_stop]). *)
Record paging_contract (targetId : string) (s0 : LoopState)
    (store : list (list SavedMessage)) (its : list Iteration)
    (result : LoopResult) : Prop := {
  pc_request : ∀ it, it ∈ its →
    it_fetch it = GetLatestByChannelBeforeId targetId (beforeId (it_before it)) (count args);
  pc_pending : ∀ s fetch, result = Awaiting s fetch →
    fetch = GetLatestByChannelBeforeId targetId (beforeId s) (count args);
  pc_batch : ∀ i it, its !! i = Some it → store !! i = Some (it_batch it);
  pc_first : ∀ it, its !! 0%nat = Some it → it_before it = s0;
  pc_chain : ∀ i it it', its !! i = Some it → its !! S i = Some it' →
    it_before it' = it_after it;
  pc_last : state_of result = default s0 (it_after <$> last its);
  pc_advance : ∀ it, it ∈ its →
    beforeId (it_after it) = next_cursor (beforeId (it_before it)) (it_batch it);
  pc_stop : ∀ i it, its !! i = Some it →
    stopped_after i its result ↔ stop_condition it;
}.

(** The active filters of the invocation, as properties of a message. *)
Definition satisfies_filters (message : SavedMessage) : Prop :=
  (∀ u, user args = Some u → sm_user_id message = u)
  ∧ (bots args = true → sm_is_bot message = true)
  ∧ (has_invites args = true →
     getInviteCodesInString (or_empty (sm_content message)) ≠ [])
  ∧ (msg_timestamp msg - MAX_CLEAN_TIME ≤ sm_posted_at message)%Z.

(** [0 < count <= MAX_CLEAN_COUNT], the negation of the first guard. *)
Definition in_range : Prop :=
  (0 < count args)%Q ∧ (count args <= inject_Z MAX_CLEAN_COUNT)%Q.

(** The target channel of an invocation that passes the three guards of
    [run] (count, channel, permission); [None] when a guard rejects it. *)
Definition accepted_target : option Channel :=
  if Qltb (inject_Z MAX_CLEAN_COUNT) (count args) || Qle_bool (count args) 0 then None
  else
    match targetChannel with
    | None => None
    | Some target =>
      if negb (ch_is_text target) then None
      else if negb (String.eqb (ch_id target) (ch_id (msg_channel msg)))
              && negb (can_clean pluginData (msg_author msg) (ch_id target))
           then None
      else Some target
    end.

(** [run] when awaited calls may reject. The error replies of the three
    guards are not awaited (lines 68, 74, 84), so a rejected invocation
    returns whatever becomes of its reply; past the guards the run stops at
    the first awaited call that rejects. *)
Definition run_with (rejects : nat → bool) (store : list (list SavedMessage))
  : list Effect * Outcome :=
  match accepted_target with
  | None => ((run store).1, Settled (run store).2)
  | Some _ =>
    let '(done, rejected) := until_rejection rejects 0 (run store).1 in
    (done, if rejected then Rejected else Settled (run store).2)
  end.

(** The message ids an effect deletes, the messages it archives. *)
Definition deleted_by (e : Effect) : list string :=
  match e with
  | DeleteMessages _ ids | MarkBulkAsDeleted ids => ids
  | _ => []
  end.

Definition archived_by (e : Effect) : list SavedMessage :=
  match e with CreateFromSavedMessages savedMessages => savedMessages | _ => [] end.

(** The kinds of effect. *)
Definition is_timer (e : Effect) : Prop :=
  match e with SetTimeout _ _ => True | _ => False end.

Definition is_fetch (e : Effect) : Prop :=
  match e with GetLatestByChannelBeforeId _ _ _ => True | _ => False end.

(** [messagesToClean.length <= args.count] *)
Definition within_count (s : LoopState) : Prop :=
  (of_length (messagesToClean s) <= count args)%Q.

(** The target channel is the channel the command was invoked in. *)
Definition targets_invoking_channel : Prop :=
  ∃ target, targetChannel = Some target
            ∧ ch_id target = ch_id (msg_channel msg).

(** The final [if] read as a property of every invocation: the deletion is
    scheduled exactly when the target channel is the invoking one. *)
Definition scheduled_iff_same_channel (store : list (list SavedMessage)) : Prop :=
  targets_invoking_channel ↔ delayed_deletion ∈ (run store).1.

(** ** The primitives *)

Lemma Qltb_true (x y : Q) : Qltb x y = true ↔ (x < y)%Q.
Proof.
  unfold Qltb. rewrite negb_true_iff, <- not_true_iff_false, Qle_bool_iff.
  split; [apply Qnot_le_lt | apply Qlt_not_le].
Qed.

Lemma Qltb_false (x y : Q) : Qltb x y = false ↔ (y <= x)%Q.
Proof. unfold Qltb. rewrite negb_false_iff. apply Qle_bool_iff. Qed.

Lemma of_length_app {A} (l k : list A) :
  of_length (l ++ k) = (of_length l + of_length k)%Q.
Proof.
  unfold of_length. rewrite length_app, Nat2Z.inj_add. apply inject_Z_plus.
Qed.

Lemma toIntegerOrInfinity_floor (q : Q) :
  (0 <= q)%Q → toIntegerOrInfinity q = Qfloor q.
Proof.
  destruct q as [n d]. unfold Qle, toIntegerOrInfinity, Qfloor. simpl.
  intros H. apply Z.quot_div_nonneg; lia.
Qed.

Lemma slice0_take {A} (l : list A) (end_ : Q) :
  ∃ n, slice0 l end_ = take n l.
Proof. unfold slice0. eauto. Qed.

Lemma slice0_length {A} (l : list A) (end_ : Q) :
  (0 <= end_)%Q → (of_length (slice0 l end_) <= end_)%Q.
Proof.
  intros H. unfold slice0. rewrite (toIntegerOrInfinity_floor _ H).
  assert (Hf : (0 ≤ Qfloor end_)%Z).
  { apply Qfloor_resp_le in H. exact H. }
  destruct (Z.ltb_spec (Qfloor end_) 0) as [Hneg|_]; [lia|].
  eapply Qle_trans; [|apply Qfloor_le].
  unfold of_length. rewrite <- Zle_Qle, length_take. lia.
Qed.

(** ** The loop, pass by pass *)

Lemma clean_loop_done targetId s store :
  Qltb (of_length (messagesToClean s)) (count args) = false →
  clean_loop targetId s store = ([], Finished s).
Proof. intros H. destruct store; simpl; rewrite H; reflexivity. Qed.

Lemma clean_loop_nil targetId s :
  Qltb (of_length (messagesToClean s)) (count args) = true →
  clean_loop targetId s [] = ([], Awaiting s (fetch_of targetId s)).
Proof. intros H. simpl. rewrite H. reflexivity. Qed.

Lemma clean_loop_cons targetId s batch store :
  Qltb (of_length (messagesToClean s)) (count args) = true →
  clean_loop targetId s (batch :: store) =
    let body := loop_body s batch in
    let it := {| it_before := s; it_fetch := fetch_of targetId s;
                 it_batch := batch; it_after := body.1;
                 it_control := body.2 |} in
    match body.2 with
    | Break => ([it], Finished body.1)
    | Next => (it :: (clean_loop targetId body.1 store).1,
               (clean_loop targetId body.1 store).2)
    end.
Proof.
  intros H. simpl. rewrite H.
  destruct (loop_body s batch) as [s' [|]]; simpl; [reflexivity|].
  destruct (clean_loop targetId s' store); reflexivity.
Qed.

(** The body of the loop, by cases on the batch. *)
Lemma loop_body_empty s : loop_body s [] = (s, Break).
Proof. reflexivity. Qed.

Lemma loop_body_nonempty s batch oldest :
  last batch = Some oldest →
  loop_body s batch =
    ({| messagesToClean :=
          messagesToClean s
          ++ slice0 (List.filter keep batch)
                    (count args - of_length (messagesToClean s))%Q;
        beforeId := sm_id oldest |},
     if (sm_posted_at oldest <? timeCutoff)%Z then Break else Next).
Proof.
  intros H. unfold loop_body. rewrite H.
  destruct batch; [discriminate | reflexivity].
Qed.

Lemma loop_body_cursor s batch :
  beforeId (loop_body s batch).1 = next_cursor (beforeId s) batch.
Proof.
  unfold next_cursor. destruct (last batch) as [oldest|] eqn:H.
  - rewrite (loop_body_nonempty _ _ _ H). reflexivity.
  - apply last_None in H. subst. reflexivity.
Qed.

Lemma loop_body_break s batch :
  (loop_body s batch).2 = Break ↔ batch = [] ∨ oldest_expired batch.
Proof.
  destruct (last batch) as [oldest|] eqn:H.
  - rewrite (loop_body_nonempty _ _ _ H). simpl. unfold oldest_expired.
    destruct (Z.ltb_spec (sm_posted_at oldest) timeCutoff) as [Hlt|Hge].
    + split; [|reflexivity]. intros _. right. eauto.
    + split; [discriminate|]. intros [->|(o & Ho & Hlt)]; [discriminate|].
      rewrite H in Ho. injection Ho as <-. lia.
  - apply last_None in H. subst. simpl. split; [auto | reflexivity].
Qed.

Lemma paging_contract_from targetId store : ∀ s,
  paging_contract targetId s store
    (clean_loop targetId s store).1 (clean_loop targetId s store).2.
Proof.
  induction store as [|batch store IH]; intros s;
    destruct (Qltb (of_length (messagesToClean s)) (count args)) eqn:Hlt.
  - rewrite clean_loop_nil by done. split; simpl; try done.
    + intros it H. by apply elem_of_nil in H.
    + by intros ? ? [= <- <-].
    + intros it H. by apply elem_of_nil in H.
  - rewrite clean_loop_done by done. split; simpl; try done.
    + intros it H. by apply elem_of_nil in H.
    + intros it H. by apply elem_of_nil in H.
  - rewrite clean_loop_cons by done. cbv zeta.
    pose proof (loop_body_cursor s batch) as Hcur.
    pose proof (loop_body_break s batch) as Hbrk.
    destruct (loop_body s batch) as [s' c] eqn:Hb. simpl in *.
    destruct c.
    + (* the body left through a break *)
      split; simpl.
      * intros it ->%list_elem_of_singleton. reflexivity.
      * done.
      * intros [|i] it; simpl; [by intros [= <-]|done].
      * by intros it [= <-].
      * intros [|i] it it'; simpl; done.
      * reflexivity.
      * intros it ->%list_elem_of_singleton. exact Hcur.
      * intros [|i] it; simpl; [|done]. intros [= <-].
        unfold stopped_after, stop_condition. simpl. split.
        -- intros _. destruct (proj1 Hbrk eq_refl); auto.
        -- eauto.
    + (* the body fell through: the condition of the while is tested again *)
      specialize (IH s'). destruct IH as [R P B F C L A St].
      assert (Hnb : ¬ (batch = [] ∨ oldest_expired batch)).
      { intros H. apply Hbrk in H. discriminate. }
      split; simpl.
      * intros it [->|H]%elem_of_cons; [reflexivity | by apply R].
      * exact P.
      * intros [|i] it; simpl; [by intros [= <-] | apply B].
      * by intros it [= <-].
      * intros [|i] it it'; simpl.
        -- intros [= <-] H. apply F in H. by rewrite H.
        -- apply C.
      * rewrite L. rewrite last_cons.
        destruct (last (clean_loop targetId s' store).1); reflexivity.
      * intros it [->|H]%elem_of_cons; [exact Hcur | by apply A].
      * intros [|i] it; simpl.
        -- intros [= <-]. unfold stopped_after, stop_condition. simpl.
           destruct (Qltb (of_length (messagesToClean s')) (count args)) eqn:Hlt'.
           ++ apply Qltb_true in Hlt'. split.
              ** intros [Hlen [sf Hf]]. exfalso.
                 destruct store as [|b' store'].
                 --- rewrite clean_loop_nil in Hf by (by apply Qltb_true).
                     discriminate.
                 --- rewrite clean_loop_cons in Hlen by (by apply Qltb_true).
                     cbv zeta in Hlen.
                     destruct (loop_body s' b').2; simpl in Hlen; lia.
              ** intros [H|[H|H]]; [tauto | tauto |].
                 exfalso. by apply (Qlt_not_le _ _ Hlt').
           ++ rewrite clean_loop_done by done. simpl. split; [|eauto].
              intros _. right. right. by apply Qltb_false.
        -- intros H. rewrite <- (St i it H). unfold stopped_after. simpl.
           split; intros [? ?]; split; auto; lia.
  - rewrite clean_loop_done by done. split; simpl; try done.
    + intros it H. by apply elem_of_nil in H.
    + intros it H. by apply elem_of_nil in H.
Qed.

(** ** The filter and the invariants of the loop *)

Lemma keep_conjunction message :
  keep message =
    match user args with
    | Some u => String.eqb (sm_user_id message) u
    | None => true
    end
    && (negb (bots args) || sm_is_bot message)
    && (negb (has_invites args)
        || negb (length (getInviteCodesInString (or_empty (sm_content message))) =? 0)%nat)
    && (timeCutoff <=? sm_posted_at message)%Z.
Proof.
  unfold keep. rewrite (Z.leb_antisym (sm_posted_at message)).
  destruct (user args); [destruct (String.eqb _ _)|];
    destruct (bots args), (sm_is_bot message), (has_invites args),
      (length _ =? 0)%nat, (_ <? _)%Z; reflexivity.
Qed.

Lemma keep_spec message : keep message = true ↔ satisfies_filters message.
Proof.
  rewrite keep_conjunction, !andb_true_iff. unfold satisfies_filters.
  assert (Hu : match user args with
               | Some u => String.eqb (sm_user_id message) u
               | None => true
               end = true ↔ ∀ u, user args = Some u → sm_user_id message = u).
  { destruct (user args) as [u|].
    - rewrite String.eqb_eq. split; [by intros ? ? [= <-] | auto].
    - split; [discriminate | done]. }
  assert (Hb : negb (bots args) || sm_is_bot message = true
               ↔ (bots args = true → sm_is_bot message = true)).
  { destruct (bots args), (sm_is_bot message); simpl; split; auto. }
  assert (Hi : negb (has_invites args)
               || negb (length (getInviteCodesInString
                                  (or_empty (sm_content message))) =? 0)%nat = true
               ↔ (has_invites args = true →
                  getInviteCodesInString (or_empty (sm_content message)) ≠ [])).
  { destruct (has_invites args),
      (getInviteCodesInString (or_empty (sm_content message)));
      simpl; split; auto; try discriminate. intros H. by specialize (H eq_refl). }
  rewrite Hu, Hb, Hi, Z.leb_le. unfold timeCutoff. tauto.
Qed.

Lemma clean_loop_iterations targetId store : ∀ s,
  Forall (λ it,
      (of_length (messagesToClean (it_before it)) < count args)%Q
      ∧ (it_after it, it_control it)
        = loop_body (it_before it) (it_batch it))
    (clean_loop targetId s store).1.
Proof.
  induction store as [|batch store IH]; intros s;
    destruct (Qltb (of_length (messagesToClean s)) (count args)) eqn:Hlt;
    try (rewrite clean_loop_done by done; constructor).
  - rewrite clean_loop_nil by done. constructor.
  - rewrite clean_loop_cons by done. cbv zeta.
    apply Qltb_true in Hlt.
    destruct (loop_body s batch) as [s' c] eqn:Hb.
    destruct c; simpl; constructor; simpl; rewrite ?Hb; auto.
Qed.

Lemma clean_loop_invariant (I : LoopState → Prop) targetId :
  (∀ s batch, I s → (of_length (messagesToClean s) < count args)%Q →
              I (loop_body s batch).1) →
  ∀ store s, I s →
    Forall (λ it, I (it_before it) ∧ I (it_after it)) (clean_loop targetId s store).1
    ∧ I (state_of (clean_loop targetId s store).2).
Proof.
  intros Hstep. induction store as [|batch store IH]; intros s Hs;
    destruct (Qltb (of_length (messagesToClean s)) (count args)) eqn:Hlt;
    try (rewrite clean_loop_done by done; by split).
  - rewrite clean_loop_nil by done. by split.
  - rewrite clean_loop_cons by done. cbv zeta.
    apply Qltb_true in Hlt. specialize (Hstep s batch Hs Hlt).
    destruct (loop_body s batch) as [s' c]. simpl in *.
    destruct c; simpl.
    + split; [|done]. by repeat constructor.
    + destruct (IH s' Hstep) as [Hits Hres]. split; [|done].
      by constructor.
Qed.

(** What one pass adds to [messagesToClean]. *)
Lemma loop_body_appends s batch :
  (of_length (messagesToClean s) < count args)%Q →
  ∃ withoutOverflow,
    messagesToClean (loop_body s batch).1
      = messagesToClean s ++ withoutOverflow
    ∧ withoutOverflow `prefix_of` List.filter keep batch
    ∧ (of_length withoutOverflow <= count args - of_length (messagesToClean s))%Q.
Proof.
  intros Hlt. destruct (last batch) as [oldest|] eqn:H.
  - rewrite (loop_body_nonempty _ _ _ H). simpl.
    eexists. split; [reflexivity|]. split.
    + destruct (slice0_take (List.filter keep batch)
                  (count args - of_length (messagesToClean s))%Q) as [n ->].
      apply prefix_take.
    + apply slice0_length. lra.
  - apply last_None in H. subst. simpl. exists [].
    rewrite app_nil_r. split; [done|]. split; [apply prefix_nil|].
    change (of_length (@nil SavedMessage)) with 0%Q. lra.
Qed.

Lemma loop_body_within_count s batch :
  within_count s → (of_length (messagesToClean s) < count args)%Q →
  within_count (loop_body s batch).1.
Proof.
  intros _ Hlt. unfold within_count.
  destruct (loop_body_appends s batch Hlt) as (w & -> & _ & Hw).
  rewrite of_length_app. lra.
Qed.

Lemma loop_body_filtered s batch :
  Forall satisfies_filters (messagesToClean s) →
  (of_length (messagesToClean s) < count args)%Q →
  Forall satisfies_filters (messagesToClean (loop_body s batch).1).
Proof.
  intros Hs Hlt.
  destruct (loop_body_appends s batch Hlt) as (w & -> & [k Hk] & _).
  apply Forall_app. split; [done|].
  apply Forall_forall. intros m Hm. apply keep_spec.
  assert (Hin : m ∈ List.filter keep batch).
  { rewrite Hk. apply elem_of_app. by left. }
  apply list_elem_of_In, filter_In in Hin. tauto.
Qed.

(** ** The effects of [run] *)

Lemma accepted_target_Some target :
  accepted_target = Some target ↔
    in_range ∧ targetChannel = Some target ∧ ch_is_text target = true
    ∧ (ch_id target = ch_id (msg_channel msg)
       ∨ can_clean pluginData (msg_author msg) (ch_id target) = true).
Proof.
  unfold accepted_target, in_range.
  destruct (Qltb (inject_Z MAX_CLEAN_COUNT) (count args)) eqn:Hhi; simpl.
  { apply Qltb_true in Hhi. split; [discriminate|]. intros [[_ H] _]. lra. }
  apply Qltb_false in Hhi.
  destruct (Qle_bool (count args) 0) eqn:Hlo.
  { apply Qle_bool_iff in Hlo. split; [discriminate|]. intros [[H _] _]. lra. }
  assert (Hpos : (0 < count args)%Q).
  { apply Qnot_le_lt. intros H. apply Qle_bool_iff in H. congruence. }
  destruct targetChannel as [t|]; [|split; [discriminate | by intros (_ & ? & _)]].
  destruct (ch_is_text t) eqn:Ht; simpl.
  2:{ split; [discriminate|]. intros (_ & [= <-] & ? & _). congruence. }
  destruct (String.eqb_spec (ch_id t) (ch_id (msg_channel msg))) as [He|He]; simpl.
  - split; [intros [= ->] | intros (_ & [= ->] & _)]; auto.
  - destruct (can_clean pluginData (msg_author msg) (ch_id t)) eqn:Hc; simpl.
    + split; [intros [= <-] | intros (_ & [= ->] & _)]; auto 6.
    + split; [discriminate|]. intros (_ & [= <-] & _ & [?|?]); congruence.
Qed.

Lemma run_rejected store :
  accepted_target = None →
  ∃ text, run store = ([SendErrorMessage (ch_id (msg_channel msg)) text], Returned).
Proof.
  unfold accepted_target, run.
  destruct (_ || _); [eauto|].
  destruct targetChannel as [t|]; [|eauto].
  destruct (negb (ch_is_text t)); [eauto|].
  destruct (_ && _); [eauto | discriminate].
Qed.

Lemma run_accepted store target :
  accepted_target = Some target →
  run store =
    match (clean_loop (ch_id target) initial store).2 with
    | Awaiting _ fetch =>
      (map it_fetch (clean_loop (ch_id target) initial store).1 ++ [fetch],
       AwaitingStore)
    | Finished s =>
      (map it_fetch (clean_loop (ch_id target) initial store).1
         ++ (respond target (messagesToClean s)).1,
       (respond target (messagesToClean s)).2)
    end.
Proof.
  unfold accepted_target, run.
  destruct (_ || _); [discriminate|].
  destruct targetChannel as [t|]; [|discriminate].
  destruct (negb (ch_is_text t)); [discriminate|].
  destruct (_ && _); [discriminate|]. intros [= ->].
  destruct (clean_loop (ch_id target) initial store) as [its [s|s f]]; simpl;
    [|reflexivity].
  destruct (respond target (messagesToClean s)); reflexivity.
Qed.

Lemma sort_by_id_Permutation savedMessages :
  sort_by_id savedMessages ≡ₚ savedMessages.
Proof. apply merge_sort_Permutation. Qed.

(** [respond] spelt out. *)
Lemma respond_nil target :
  respond target [] =
    (SendErrorMessage (ch_id (msg_channel msg)) "Found no messages to clean!"
       :: timer_of target, Returned).
Proof. reflexivity. Qed.

Lemma respond_cons target first rest :
  let cleaned := first :: rest in
  let sorted := sort_by_id cleaned in
  let archiveUrl :=
    getUrl pluginData (getBaseUrl pluginData)
           (createFromSavedMessages pluginData sorted) in
  respond target cleaned =
    ([IgnoreLog MESSAGE_DELETE (sm_id first);
      IgnoreLog MESSAGE_DELETE_BULK (sm_id first)]
     ++ map (IgnoreLog MESSAGE_DELETE) (map sm_id sorted)
     ++ [IgnoreLog MESSAGE_DELETE_BULK (default "" (head (map sm_id sorted)));
         DeleteMessages (ch_id target) (map sm_id sorted);
         MarkBulkAsDeleted (map sm_id sorted);
         CreateFromSavedMessages sorted;
         LogClean (msg_author msg) (ch_id target) (length sorted) archiveUrl;
         SendSuccessMessage (ch_id (msg_channel msg))
           (responseText target (length cleaned) archiveUrl)]
     ++ timer_of target, Returned).
Proof.
  intros cleaned sorted archiveUrl. unfold respond, cleanMessages.
  fold cleaned. fold sorted. fold archiveUrl. simpl.
  rewrite <- !app_assoc. reflexivity.
Qed.

Lemma respond_returned target cleaned : (respond target cleaned).2 = Returned.
Proof.
  destruct cleaned as [|first rest]; [reflexivity|].
  by rewrite respond_cons.
Qed.

Lemma respond_effects target cleaned e :
  e ∈ (respond target cleaned).1 →
  (∃ text, e = SendErrorMessage (ch_id (msg_channel msg)) text)
  ∨ (∃ type id, e = IgnoreLog type id)
  ∨ e = DeleteMessages (ch_id target) (map sm_id (sort_by_id cleaned))
  ∨ e = MarkBulkAsDeleted (map sm_id (sort_by_id cleaned))
  ∨ e = CreateFromSavedMessages (sort_by_id cleaned)
  ∨ (∃ archiveUrl,
       e = LogClean (msg_author msg) (ch_id target) (length cleaned) archiveUrl)
  ∨ (∃ archiveUrl,
       e = SendSuccessMessage (ch_id (msg_channel msg))
             (responseText target (length cleaned) archiveUrl))
  ∨ (e = delayed_deletion ∧ ch_id target = ch_id (msg_channel msg)).
Proof.
  assert (Htimer : e ∈ timer_of target →
                   e = delayed_deletion ∧ ch_id target = ch_id (msg_channel msg)).
  { unfold timer_of.
    destruct (String.eqb_spec (ch_id target) (ch_id (msg_channel msg))).
    - by intros ->%list_elem_of_singleton.
    - by intros ?%elem_of_nil. }
  destruct cleaned as [|first rest].
  - rewrite respond_nil. simpl. intros [->|H]%elem_of_cons; [eauto|].
    do 7 right. auto.
  - rewrite respond_cons. cbv zeta. simpl.
    rewrite (Permutation_length (sort_by_id_Permutation (first :: rest))).
    rewrite !elem_of_cons, !elem_of_app, !elem_of_cons, list_elem_of_fmap.
    intros [->|[->|[(id & -> & _)|[->|[->|[->|[->|[->|[->|H]]]]]]]]]; eauto 12.
Qed.

Lemma run_effects store e :
  e ∈ (run store).1 →
  (∃ text, e = SendErrorMessage (ch_id (msg_channel msg)) text)
  ∨ ∃ target, accepted_target = Some target
      ∧ (e ∈ map it_fetch (clean_loop (ch_id target) initial store).1
         ∨ (∃ s, (clean_loop (ch_id target) initial store).2 = Awaiting s e)
         ∨ (∃ s, (clean_loop (ch_id target) initial store).2 = Finished s
                 ∧ e ∈ (respond target (messagesToClean s)).1)).
Proof.
  destruct accepted_target as [target|] eqn:Hacc.
  - rewrite (run_accepted store target Hacc). intros H. right. exists target.
    split; [done|].
    destruct (clean_loop (ch_id target) initial store).2 as [s|s f]; simpl in H;
      apply elem_of_app in H as [H|H]; eauto.
    apply list_elem_of_singleton in H as ->. eauto.
  - destruct (run_rejected store Hacc) as [text ->]. simpl.
    intros ->%list_elem_of_singleton. eauto.
Qed.

Lemma fetches_are_fetches targetId s store e :
  e ∈ map it_fetch (clean_loop targetId s store).1 →
  ∃ cursor, e = GetLatestByChannelBeforeId targetId cursor (count args).
Proof.
  intros (it & -> & Hit)%list_elem_of_fmap.
  rewrite (pc_request _ _ _ _ _ (paging_contract_from targetId store s) it Hit).
  eauto.
Qed.

(** ** The properties of the command *)

(** C8: an invocation whose count is greater than [MAX_CLEAN_COUNT] (150)
    or not greater than 0 sends the error message "Clean count must be
    between 1 and 150" and returns: the message store is not queried and
    nothing is deleted. *)
Theorem clean_count_out_of_range store :
  (inject_Z MAX_CLEAN_COUNT < count args)%Q ∨ (count args <= 0)%Q →
  MAX_CLEAN_COUNT = 150%Z
  ∧ run store =
      ([SendErrorMessage (ch_id (msg_channel msg))
          "Clean count must be between 1 and 150"], Returned)
  ∧ ∀ e, e ∈ (run store).1 → ¬ is_fetch e ∧ deleted_by e = [].
Proof.
  intros H. split; [reflexivity|].
  assert (Hrun : run store =
      ([SendErrorMessage (ch_id (msg_channel msg))
          "Clean count must be between 1 and 150"], Returned)).
  { unfold run.
    destruct (Qltb (inject_Z MAX_CLEAN_COUNT) (count args)) eqn:Hhi;
      [reflexivity|].
    destruct (Qle_bool (count args) 0) eqn:Hlo; [reflexivity|].
    exfalso. apply Qltb_false in Hhi.
    destruct H as [H|H]; [lra|]. apply Qle_bool_iff in H. congruence. }
  split; [exact Hrun|]. rewrite Hrun. simpl.
  intros e ->%list_elem_of_singleton. simpl. auto.
Qed.

(** C9: with an in-range count [c], [messagesToClean] never holds more
    than [c] messages: before and after every pass of the paging loop its
    length is at most [c], each pass appends a prefix of the filtered batch
    no longer than the remaining quota, and so at most [c] messages are
    deleted, archived and reported. *)
Theorem clean_at_most_count store target :
  in_range →
  Forall (λ it,
      within_count (it_before it) ∧ within_count (it_after it)
      ∧ ∃ withoutOverflow,
          messagesToClean (it_after it)
            = messagesToClean (it_before it) ++ withoutOverflow
          ∧ withoutOverflow `prefix_of` List.filter keep (it_batch it)
          ∧ (of_length withoutOverflow
             <= count args - of_length (messagesToClean (it_before it)))%Q)
    (clean_loop (ch_id target) initial store).1
  ∧ within_count (state_of (clean_loop (ch_id target) initial store).2)
  ∧ ∀ e, e ∈ (run store).1 →
      (of_length (deleted_by e) <= count args)%Q
      ∧ (of_length (archived_by e) <= count args)%Q
      ∧ (∀ moderator c n archiveUrl, e = LogClean moderator c n archiveUrl →
           (inject_Z (Z.of_nat n) <= count args)%Q)
      ∧ (∀ c text, e = SendSuccessMessage c text →
           ∃ t n archiveUrl, text = responseText t n archiveUrl
                             ∧ (inject_Z (Z.of_nat n) <= count args)%Q).
Proof.
  intros [Hpos Hmax].
  assert (Hinit : within_count initial).
  { unfold within_count. change (of_length (messagesToClean initial)) with 0%Q. lra. }
  assert (Hinv : ∀ t, let r := clean_loop (ch_id t) initial store in
            Forall (λ it, within_count (it_before it) ∧ within_count (it_after it)) r.1
            ∧ within_count (state_of r.2)).
  { intros t. apply (clean_loop_invariant within_count); [|exact Hinit].
    intros. by apply loop_body_within_count. }
  split; [|split].
  - destruct (Hinv target) as [Hits _].
    pose proof (clean_loop_iterations (ch_id target) store initial) as Hbody.
    rewrite Forall_forall in Hits, Hbody. apply Forall_forall. intros it Hit.
    destruct (Hits it Hit) as [Hb Ha]. destruct (Hbody it Hit) as [Hlt Heq].
    split; [done|]. split; [done|].
    destruct (loop_body_appends (it_before it) (it_batch it) Hlt)
      as (w & Hw). rewrite <- Heq in Hw. eauto.
  - apply Hinv.
  - intros e He. assert (H0 : (0 <= count args)%Q) by lra.
    apply run_effects in He as [[text ->]|(t & Hacc & [He|[[s He]|(s & Hs & He)]])].
    + simpl. repeat split; try done.
    + apply fetches_are_fetches in He as [cursor ->]. simpl. repeat split; done.
    + pose proof (pc_pending _ _ _ _ _
                    (paging_contract_from (ch_id t) store initial) s e He) as ->.
      simpl. repeat split; done.
    + destruct (Hinv t) as [_ Hs']. rewrite Hs in Hs'. simpl in Hs'.
      unfold within_count in Hs'.
      assert (Hsort : of_length (sort_by_id (messagesToClean s))
                      = of_length (messagesToClean s)).
      { unfold of_length. by rewrite (Permutation_length (sort_by_id_Permutation _)). }
      assert (Hids : of_length (map sm_id (sort_by_id (messagesToClean s)))
                     = of_length (messagesToClean s)).
      { unfold of_length at 1. rewrite length_map. exact Hsort. }
      apply respond_effects in He
        as [[text ->]|[(ty & id & ->)|[->|[->|[->|[[u ->]|[[u ->]|[-> _]]]]]]]];
        simpl; rewrite ?Hids, ?Hsort; repeat split; try done.
      * by intros ? ? ? ? [= _ _ <- _].
      * intros ? ? [= _ <-]. eauto.
Qed.

(** C10: every message handed to [cleanMessages] passed all the active
    filters, and so did every message that is deleted or archived: its
    author is the user of the [user] option when given, it is a bot
    message when [bots] is set, its content holds an invite code when
    [has-invites] is set, and it was posted no earlier than one day
    ([MAX_CLEAN_TIME]) before the invoking message. *)
Theorem clean_only_filtered store :
  MAX_CLEAN_TIME = (24 * 60 * 60 * 1000)%Z
  ∧ (∀ target,
       Forall (λ it, Forall satisfies_filters (messagesToClean (it_after it)))
         (clean_loop (ch_id target) initial store).1
       ∧ Forall satisfies_filters
           (messagesToClean (state_of (clean_loop (ch_id target) initial store).2)))
  ∧ ∀ e, e ∈ (run store).1 →
      Forall satisfies_filters (archived_by e)
      ∧ ∀ id, id ∈ deleted_by e →
          ∃ message, sm_id message = id ∧ satisfies_filters message.
Proof.
  split; [reflexivity|].
  assert (Hinv : ∀ t, let r := clean_loop (ch_id t) initial store in
            Forall (λ it, Forall satisfies_filters (messagesToClean (it_before it))
                          ∧ Forall satisfies_filters (messagesToClean (it_after it))) r.1
            ∧ Forall satisfies_filters (messagesToClean (state_of r.2))).
  { intros t.
    apply (clean_loop_invariant (λ s, Forall satisfies_filters (messagesToClean s))).
    - intros. by apply loop_body_filtered.
    - constructor. }
  split.
  - intros target. destruct (Hinv target) as [Hits Hres]. split; [|done].
    eapply Forall_impl; [exact Hits|]. by intros it [_ H].
  - intros e He.
    apply run_effects in He as [[text ->]|(t & Hacc & [He|[[s He]|(s & Hs & He)]])].
    + simpl. split; [constructor|]. by intros id ?%elem_of_nil.
    + apply fetches_are_fetches in He as [cursor ->]. simpl.
      split; [constructor|]. by intros id ?%elem_of_nil.
    + pose proof (pc_pending _ _ _ _ _
                    (paging_contract_from (ch_id t) store initial) s e He) as ->.
      simpl. split; [constructor|]. by intros id ?%elem_of_nil.
    + destruct (Hinv t) as [_ Hs']. rewrite Hs in Hs'. simpl in Hs'.
      assert (Hsorted : Forall satisfies_filters (sort_by_id (messagesToClean s))).
      { by rewrite sort_by_id_Permutation. }
      assert (Hids : ∀ id, id ∈ map sm_id (sort_by_id (messagesToClean s)) →
                ∃ message, sm_id message = id ∧ satisfies_filters message).
      { intros id (m & -> & Hm)%list_elem_of_fmap. exists m. split; [done|].
        rewrite Forall_forall in Hsorted. by apply Hsorted. }
      apply respond_effects in He
        as [[text ->]|[(ty & i0 & ->)|[->|[->|[->|[[u ->]|[[u ->]|[-> _]]]]]]]];
        simpl; (split; [done || constructor|]); try done;
        by intros ? ?%elem_of_nil.
Qed.

Lemma clean_loop_finishes targetId store : ∀ s,
  [] ∈ store → ∃ s', (clean_loop targetId s store).2 = Finished s'.
Proof.
  induction store as [|batch store IH]; intros s Hin.
  { by apply elem_of_nil in Hin. }
  destruct (Qltb (of_length (messagesToClean s)) (count args)) eqn:Hlt;
    [|rewrite clean_loop_done by done; eauto].
  rewrite clean_loop_cons by done. cbv zeta.
  apply elem_of_cons in Hin as [<-|Hin].
  - rewrite loop_body_empty. simpl. eauto.
  - destruct (loop_body s batch) as [s' c]. destruct c; simpl; eauto.
Qed.

Lemma run_returns store : [] ∈ store → (run store).2 = Returned.
Proof.
  intros Hin. destruct accepted_target as [target|] eqn:Hacc.
  - rewrite (run_accepted store target Hacc).
    destruct (clean_loop_finishes (ch_id target) store initial Hin) as [s ->].
    simpl. apply respond_returned.
  - by destruct (run_rejected store Hacc) as [text ->].
Qed.

Lemma timer_in_respond target cleaned :
  ch_id target = ch_id (msg_channel msg) →
  delayed_deletion ∈ (respond target cleaned).1.
Proof.
  intros Hsame.
  assert (Ht : timer_of target = [delayed_deletion]).
  { unfold timer_of. by rewrite Hsame, String.eqb_refl. }
  destruct cleaned as [|first rest].
  - rewrite respond_nil, Ht. simpl. set_solver.
  - rewrite respond_cons. cbv zeta. rewrite Ht. simpl.
    rewrite !elem_of_cons, !elem_of_app, !elem_of_cons. auto 20.
Qed.

Lemma timers_of_run store e :
  e ∈ (run store).1 → is_timer e →
  e = delayed_deletion
  ∧ (run store).2 = Returned
  ∧ ∃ target, accepted_target = Some target
              ∧ ch_id target = ch_id (msg_channel msg).
Proof.
  intros He Ht. pose proof He as He'.
  apply run_effects in He' as [[text ->]|(t & Hacc & [Hf|[[s Hf]|(s & Hs & Hr)]])].
  - destruct Ht.
  - apply fetches_are_fetches in Hf as [cursor ->]. destruct Ht.
  - pose proof (pc_pending _ _ _ _ _
                  (paging_contract_from (ch_id t) store initial) s e Hf) as ->.
    destruct Ht.
  - rewrite (run_accepted store t Hacc), Hs. simpl.
    apply respond_effects in Hr
      as [[text ->]|[(ty & i0 & ->)|[->|[->|[->|[[u ->]|[[u ->]|[-> Hsame]]]]]]]];
      try destruct Ht.
    split; [done|]. split; [apply respond_returned | eauto].
Qed.

Lemma last_is_oldest batch oldest :
  newest_first batch → last batch = Some oldest →
  ∀ message, message ∈ batch → (sm_posted_at oldest ≤ sm_posted_at message)%Z.
Proof.
  intros Hsorted Hlast message Hin.
  apply last_Some in Hlast as [front ->].
  apply elem_of_app in Hin as [Hin|Hin].
  - apply (StronglySorted_app_1_elem_of _ _ _ _ _ Hsorted Hin). by left.
  - apply list_elem_of_singleton in Hin as ->. lia.
Qed.

Lemma run_never_throws store : (run store).2 ≠ Threw.
Proof.
  destruct accepted_target as [target|] eqn:Hacc.
  - rewrite (run_accepted store target Hacc).
    destruct (clean_loop (ch_id target) initial store).2 as [s|s f]; simpl;
      [by rewrite respond_returned | done].
  - by destruct (run_rejected store Hacc) as [text ->].
Qed.

Lemma clean_loop_awaiting targetId store : ∀ s s' fetch,
  (clean_loop targetId s store).2 = Awaiting s' fetch →
  length (clean_loop targetId s store).1 = length store
  ∧ (of_length (messagesToClean s') < count args)%Q.
Proof.
  induction store as [|batch store IH]; intros s s' fetch;
    destruct (Qltb (of_length (messagesToClean s)) (count args)) eqn:Hlt;
    try (rewrite clean_loop_done by done; discriminate).
  - rewrite clean_loop_nil by done. simpl. intros [= <- _].
    split; [done | by apply Qltb_true].
  - rewrite clean_loop_cons by done. cbv zeta.
    destruct (loop_body s batch) as [s1 c]. simpl.
    destruct c; simpl; [discriminate|]. intros H.
    destruct (IH _ _ _ H) as [Hlen Hs']. split; [by rewrite Hlen | done].
Qed.

Lemma clean_loop_no_pass targetId s store s' :
  (clean_loop targetId s store).1 = [] →
  (clean_loop targetId s store).2 = Finished s' →
  (count args <= of_length (messagesToClean s))%Q.
Proof.
  destruct (Qltb (of_length (messagesToClean s)) (count args)) eqn:Hlt;
    [|intros _ _; by apply Qltb_false].
  destruct store as [|batch store].
  - rewrite clean_loop_nil by done. discriminate.
  - rewrite clean_loop_cons by done. cbv zeta.
    destruct (loop_body s batch).2; discriminate.
Qed.

Lemma clean_loop_first_pass targetId s batch store :
  (of_length (messagesToClean s) < count args)%Q →
  ∃ it, (clean_loop targetId s (batch :: store)).1 !! 0%nat = Some it
        ∧ it_before it = s ∧ it_batch it = batch
        ∧ it_fetch it
          = GetLatestByChannelBeforeId targetId (beforeId s) (count args).
Proof.
  intros Hlt. rewrite clean_loop_cons by (by apply Qltb_true). cbv zeta.
  destruct (loop_body s batch).2; simpl; eexists; split; done.
Qed.

(** The effects of [respond] but for the timer. *)
Lemma respond_shape target cleaned :
  ∃ body, (respond target cleaned).1 = body ++ timer_of target
          ∧ Forall (λ e, ¬ is_fetch e ∧ ¬ is_timer e) body.
Proof.
  destruct cleaned as [|first rest].
  - rewrite respond_nil. simpl. eexists [_]. split; [done|].
    repeat constructor; simpl; tauto.
  - rewrite respond_cons. cbv zeta. rewrite !app_assoc.
    eexists. split; [reflexivity|].
    rewrite !Forall_app. repeat split;
      try (repeat constructor; simpl; tauto).
    apply Forall_fmap, Forall_forall. intros id _. simpl. tauto.
Qed.

Lemma timer_of_timers target :
  (timer_of target = []
   ∨ timer_of target = [delayed_deletion])
  ∧ Forall (λ e, ¬ is_fetch e) (timer_of target).
Proof.
  unfold timer_of.
  destruct (String.eqb _ _); (split; [auto|]); repeat constructor; simpl; tauto.
Qed.

(** The trace of [run]: the fetches of the loop in order, then the rest,
    in which nothing is a fetch and only the last effect may be a timer. *)
Lemma run_trace store :
  match accepted_target with
  | Some target =>
    ∃ body timers,
      (run store).1
      = (map it_fetch (clean_loop (ch_id target) initial store).1
         ++ pending_fetch (clean_loop (ch_id target) initial store).2)
        ++ body ++ timers
      ∧ Forall (λ e, ¬ is_fetch e ∧ ¬ is_timer e) body
      ∧ (timers = [] ∨ timers = [delayed_deletion])
  | None =>
    ∃ text, (run store).1 = [SendErrorMessage (ch_id (msg_channel msg)) text]
  end.
Proof.
  destruct accepted_target as [target|] eqn:Hacc.
  - rewrite (run_accepted store target Hacc).
    destruct (clean_loop (ch_id target) initial store).2 as [s|s f]; simpl.
    + destruct (respond_shape target (messagesToClean s)) as (body & -> & Hbody).
      exists body, (timer_of target). rewrite app_nil_r.
      split; [done|]. split; [done|]. apply timer_of_timers.
    + exists [], []. rewrite !app_nil_r. split; [done|]. split; [constructor | auto].
  - destruct (run_rejected store Hacc) as [text ->]. by exists text.
Qed.

(** C4: in the paging loop every fetch asks for the target channel, the
    current cursor [beforeId] and the limit [args.count]; the cursor
    starts at the id of the invoking message and after a batch that is not
    empty it is the id of the last message of the batch (the oldest one, as
    batches come newest first); the loop is left after a pass exactly when
    the batch was empty, the last message of the batch is older than the
    cutoff of one day, or [args.count] messages are collected. The loop
    does fetch: with a count in range it fetches at once, every pass is a
    pass of the loop body on the next answer of the store begun with fewer
    than [args.count] messages, it only waits when the answers are used up,
    and it makes no pass only when nothing is asked for. The fetches of
    [run] are, in order, exactly those of this loop. *)
Theorem clean_paging store target :
  initial = {| messagesToClean := []; beforeId := msg_id msg |}
  ∧ timeCutoff = (msg_timestamp msg - 24 * 60 * 60 * 1000)%Z
  ∧ paging_contract (ch_id target) initial store
      (clean_loop (ch_id target) initial store).1
      (clean_loop (ch_id target) initial store).2
  ∧ (∀ batch oldest, newest_first batch → last batch = Some oldest →
       ∀ message, message ∈ batch →
         (sm_posted_at oldest ≤ sm_posted_at message)%Z)
  ∧ (∀ e, e ∈ (run store).1 → is_fetch e →
      ∃ t, accepted_target = Some t
           ∧ (e ∈ map it_fetch (clean_loop (ch_id t) initial store).1
              ∨ ∃ s, (clean_loop (ch_id t) initial store).2 = Awaiting s e))
  ∧ Forall (λ it,
        (of_length (messagesToClean (it_before it)) < count args)%Q
        ∧ (it_after it, it_control it)
          = loop_body (it_before it) (it_batch it))
      (clean_loop (ch_id target) initial store).1
  ∧ (∀ s fetch,
       (clean_loop (ch_id target) initial store).2 = Awaiting s fetch →
       length (clean_loop (ch_id target) initial store).1 = length store
       ∧ (of_length (messagesToClean s) < count args)%Q)
  ∧ ((clean_loop (ch_id target) initial store).1 = [] →
     ∀ s, (clean_loop (ch_id target) initial store).2 = Finished s →
          (count args <= 0)%Q)
  ∧ (in_range →
     match store with
     | [] =>
       clean_loop (ch_id target) initial store
       = ([], Awaiting initial
                (GetLatestByChannelBeforeId (ch_id target) (msg_id msg)
                   (count args)))
     | batch :: _ =>
       ∃ it, (clean_loop (ch_id target) initial store).1 !! 0%nat = Some it
             ∧ it_before it = initial ∧ it_batch it = batch
             ∧ it_fetch it
               = GetLatestByChannelBeforeId (ch_id target) (msg_id msg)
                   (count args)
     end)
  ∧ match accepted_target with
    | Some t =>
      ∃ rest,
        (run store).1
        = (map it_fetch (clean_loop (ch_id t) initial store).1
           ++ pending_fetch (clean_loop (ch_id t) initial store).2)
          ++ rest
        ∧ Forall (λ e, ¬ is_fetch e) rest
    | None => Forall (λ e, ¬ is_fetch e) (run store).1
    end.
Proof.
  split; [reflexivity|]. split; [reflexivity|].
  split; [apply paging_contract_from|].
  split; [apply last_is_oldest|].
  split.
  { intros e He Hf.
    apply run_effects in He as [[text ->]|(t & Hacc & [He|[He|(s & Hs & He)]])].
    - destruct Hf.
    - eauto.
    - eauto.
    - apply respond_effects in He
        as [[text ->]|[(ty & i0 & ->)|[->|[->|[->|[[u ->]|[[u ->]|[-> _]]]]]]]];
        destruct Hf. }
  split; [apply clean_loop_iterations|].
  split; [apply clean_loop_awaiting|].
  split.
  { intros Hnil s Hfin.
    apply (clean_loop_no_pass _ _ _ _ Hnil Hfin). }
  split.
  { intros [Hpos _].
    assert (Hlt : (of_length (messagesToClean initial) < count args)%Q).
    { change (of_length (messagesToClean initial)) with 0%Q. lra. }
    destruct store as [|batch store].
    - apply clean_loop_nil. by apply Qltb_true.
    - apply (clean_loop_first_pass _ _ _ _ Hlt). }
  pose proof (run_trace store) as Htrace.
  destruct accepted_target as [t|].
  - destruct Htrace as (body & timers & -> & Hbody & Htimers).
    exists (body ++ timers). split; [done|]. apply Forall_app. split.
    + eapply Forall_impl; [exact Hbody|]. simpl. tauto.
    + destruct Htimers as [->| ->]; repeat constructor. simpl. tauto.
  - destruct Htrace as [text ->]. repeat constructor. simpl. tauto.
Qed.

Lemma until_rejection_subset rejects trace : ∀ i e,
  e ∈ (until_rejection rejects i trace).1 → e ∈ trace.
Proof.
  induction trace as [|x rest IH]; intros i e; simpl; [done|].
  destruct (awaited x && rejects i).
  - simpl. intros ->%list_elem_of_singleton. by left.
  - destruct (until_rejection rejects (S i) rest) as [done rejected] eqn:Hrest.
    simpl. intros [->|He]%elem_of_cons; [by left|]. right.
    apply (IH (S i)). by rewrite Hrest.
Qed.

Lemma until_rejection_complete rejects trace : ∀ i,
  (until_rejection rejects i trace).2 = false →
  (until_rejection rejects i trace).1 = trace.
Proof.
  induction trace as [|x rest IH]; intros i; simpl; [done|].
  destruct (awaited x && rejects i); [discriminate|].
  specialize (IH (S i)).
  destruct (until_rejection rejects (S i) rest) as [done rejected].
  simpl in *. intros Hr. by rewrite (IH Hr).
Qed.

Lemma until_rejection_none rejects trace : ∀ i,
  (∀ j e, trace !! j = Some e → awaited e = true → rejects (i + j)%nat = false) →
  (until_rejection rejects i trace).2 = false.
Proof.
  induction trace as [|x rest IH]; intros i Hnone; simpl; [done|].
  assert (Hx : awaited x && rejects i = false).
  { destruct (awaited x) eqn:Ha; [|done]. simpl.
    rewrite <- (Nat.add_0_r i). by apply (Hnone 0%nat x). }
  rewrite Hx. specialize (IH (S i)).
  destruct (until_rejection rejects (S i) rest) as [done rejected].
  simpl in *. apply IH. intros j e Hj Ha.
  rewrite <- Nat.add_succ_r. by apply (Hnone (S j) e).
Qed.

(** A timer that was set is the sign that no awaited call rejected, when
    the only timer of a trace is its last effect. *)
Lemma until_rejection_timer rejects body timers : ∀ i e,
  Forall (λ x, ¬ is_timer x) body →
  (timers = [] ∨ ∃ t, timers = [t] ∧ awaited t = false) →
  e ∈ (until_rejection rejects i (body ++ timers)).1 → is_timer e →
  (until_rejection rejects i (body ++ timers)).2 = false.
Proof.
  induction body as [|x body IH]; intros i e Hbody Htimers; simpl.
  - destruct Htimers as [->|(t & -> & Ht)]; simpl; [done|].
    by rewrite Ht.
  - apply Forall_cons in Hbody as [Hx Hbody].
    destruct (awaited x && rejects i).
    + simpl. intros ->%list_elem_of_singleton. done.
    + specialize (IH (S i) e Hbody Htimers).
      destruct (until_rejection rejects (S i) (body ++ timers))
        as [done rejected].
      simpl in *. intros [->|He]%elem_of_cons Ht; [done | by apply IH].
Qed.

Lemma run_with_settled rejects store status :
  (run_with rejects store).2 = Settled status →
  (run_with rejects store).1 = (run store).1 ∧ (run store).2 = status.
Proof.
  unfold run_with. destruct accepted_target as [target|]; simpl.
  - pose proof (until_rejection_complete rejects (run store).1 0) as Hc.
    destruct (until_rejection rejects 0 (run store).1) as [done rejected].
    simpl in *. destruct rejected; [discriminate|].
    intros [= <-]. split; [by apply Hc | done].
  - by intros [= <-].
Qed.

(** C6, as the code has it: an invocation that the three guards of [run]
    accept (count in range, target a text channel, permission on a
    different target) and that returns, its paging loop left and none of
    its awaited calls rejected, has scheduled, when and only when its
    target channel is the invoking channel, one timer of
    [CLEAN_COMMAND_DELETE_DELAY] (5 seconds) that deletes the invoking
    message and the response, failures swallowed, the handle dropped. An
    invocation that a guard rejects, that targets another channel, or
    that an awaited call makes reject, schedules no timer. The run returns
    when the store answers with an empty batch and no awaited call
    rejects. *)
Theorem clean_delayed_deletion rejects store :
  CLEAN_COMMAND_DELETE_DELAY = 5000%Z
  ∧ ((run_with rejects store).2 = Settled Returned →
       (delayed_deletion ∈ (run_with rejects store).1
        ↔ ∃ target, accepted_target = Some target
                    ∧ ch_id target = ch_id (msg_channel msg)))
  ∧ (∀ e, e ∈ (run_with rejects store).1 → is_timer e →
       e = delayed_deletion
       ∧ (run_with rejects store).2 = Settled Returned
       ∧ ∃ target, accepted_target = Some target
                   ∧ ch_id target = ch_id (msg_channel msg))
  ∧ ([] ∈ store →
     (∀ i e, (run store).1 !! i = Some e → awaited e = true →
             rejects i = false) →
     (run_with rejects store).2 = Settled Returned)
  ∧ (∀ e, e ∈ (run_with rejects store).1 → e ∈ (run store).1).
Proof.
  split; [reflexivity|]. split; [|split; [|split]].
  - intros Hret. destruct (run_with_settled _ _ _ Hret) as [-> Hreturned].
    split.
    + intros Hin. by apply (timers_of_run store _ Hin).
    + intros (target & Hacc & Hsame).
      rewrite (run_accepted store target Hacc) in Hreturned |- *.
      destruct (clean_loop (ch_id target) initial store).2 as [s|s f];
        [|discriminate]. simpl.
      apply elem_of_app. right. by apply timer_in_respond.
  - intros e He Ht.
    assert (Hin : e ∈ (run store).1).
    { revert He. unfold run_with. destruct accepted_target; simpl; [|done].
      pose proof (until_rejection_subset rejects (run store).1 0 e) as Hsub.
      destruct (until_rejection rejects 0 (run store).1). exact Hsub. }
    destruct (timers_of_run store e Hin Ht) as (-> & Hreturned & Hsame).
    split; [done|]. split; [|done].
    pose proof (run_trace store) as Htrace.
    revert He. unfold run_with.
    destruct accepted_target as [target|]; simpl; [|by rewrite Hreturned].
    destruct Htrace as (body & timers & Heq & Hbody & Htimers).
    assert (Hfetches :
      Forall (λ x, ¬ is_timer x)
        (map it_fetch (clean_loop (ch_id target) initial store).1
         ++ pending_fetch (clean_loop (ch_id target) initial store).2)).
    { apply Forall_app. split.
      - apply Forall_forall. intros x Hx.
        apply fetches_are_fetches in Hx as [cursor ->]. simpl. tauto.
      - pose proof (pc_pending _ _ _ _ _
                      (paging_contract_from (ch_id target) store initial)) as Hp.
        destruct (clean_loop (ch_id target) initial store).2 as [s|s f];
          simpl; [constructor|].
        rewrite (Hp s f eq_refl). repeat constructor. simpl. tauto. }
    set (fetches := map it_fetch (clean_loop (ch_id target) initial store).1
                    ++ pending_fetch (clean_loop (ch_id target) initial store).2)
      in *.
    rewrite Heq, app_assoc.
    pose proof (until_rejection_timer rejects (fetches ++ body) timers 0
                  delayed_deletion) as Hnone.
    destruct (until_rejection rejects 0 ((fetches ++ body) ++ timers))
      as [done rejected].
    simpl in *. intros He. rewrite Hnone; [by rewrite Hreturned| | |done|done].
    + apply Forall_app. split; [done|].
      eapply Forall_impl; [exact Hbody|]. simpl. tauto.
    + destruct Htimers as [->| ->]; [by left|]. right. by eexists.
  - intros Hempty Hnone. pose proof (run_returns store Hempty) as Hreturned.
    unfold run_with. destruct accepted_target; simpl; [|by rewrite Hreturned].
    pose proof (until_rejection_none rejects (run store).1 0 Hnone) as Hr.
    destruct (until_rejection rejects 0 (run store).1) as [done rejected].
    simpl in *. by rewrite Hr, Hreturned.
  - intros e. unfold run_with. destruct accepted_target; simpl; [|done].
    pose proof (until_rejection_subset rejects (run store).1 0 e) as Hsub.
    destruct (until_rejection rejects 0 (run store).1). exact Hsub.
Qed.

(** ** Further properties of [run] *)

(** A message the bot posts; a reply to the invoking channel. *)
Definition is_message (e : Effect) : Prop :=
  match e with
  | SendErrorMessage _ _ | SendSuccessMessage _ _ => True
  | _ => False
  end.

Definition is_reply (e : Effect) : Prop :=
  ∃ text, e = SendErrorMessage (ch_id (msg_channel msg)) text
          ∨ e = SendSuccessMessage (ch_id (msg_channel msg)) text.

(** The messages collected so far are the first ones, in the order of the
    store's answers [consumed], that the filter keeps: all of them, or as
    many as the quota allows. *)
Definition collected_in_order (s : LoopState) (consumed : list SavedMessage) : Prop :=
  messagesToClean s `prefix_of` List.filter keep consumed
  ∧ (messagesToClean s = List.filter keep consumed
     ∨ (count args - 1 < of_length (messagesToClean s))%Q).

Lemma slice0_nonneg {A} (l : list A) (end_ : Q) :
  (0 <= end_)%Q → slice0 l end_ = take (Z.to_nat (Qfloor end_)) l.
Proof.
  intros H. unfold slice0. rewrite (toIntegerOrInfinity_floor _ H).
  assert (Hf : (0 ≤ Qfloor end_)%Z).
  { apply Qfloor_resp_le in H. exact H. }
  destruct (Z.ltb_spec (Qfloor end_) 0) as [Hneg|_]; [lia|].
  destruct (Z.le_gt_cases (Qfloor end_) (Z.of_nat (length l))) as [Hle|Hgt].
  - by rewrite Z.min_l.
  - rewrite Z.min_r, Nat2Z.id by lia. rewrite !take_ge; [done | lia | lia].
Qed.

Lemma Qfloor_small (q : Q) : (0 <= q)%Q → (q < 1)%Q → Qfloor q = 0%Z.
Proof.
  intros H0 H1. pose proof (Qfloor_le q) as Hle. pose proof (Qlt_floor q) as Hlt.
  assert (Ha : (inject_Z (Qfloor q) < inject_Z 1)%Q).
  { change (inject_Z 1) with 1%Q. lra. }
  assert (Hb : (inject_Z 0 < inject_Z (Qfloor q + 1))%Q).
  { change (inject_Z 0) with 0%Q. lra. }
  rewrite <- Zlt_Qlt in Ha, Hb. lia.
Qed.

Lemma filter_sublist {A} (f : A → bool) (l : list A) :
  List.filter f l `sublist_of` l.
Proof.
  induction l as [|x l IH]; simpl; [done|].
  destruct (f x); [by apply sublist_skip | by apply sublist_cons].
Qed.

Lemma loop_body_in_order s batch consumed :
  collected_in_order s consumed →
  (of_length (messagesToClean s) < count args)%Q →
  collected_in_order (loop_body s batch).1 (consumed ++ batch).
Proof.
  intros [Hpre Hall] Hlt. unfold collected_in_order.
  destruct (last batch) as [oldest|] eqn:Hlast.
  2:{ apply last_None in Hlast. subst. rewrite app_nil_r. simpl. auto. }
  rewrite (loop_body_nonempty _ _ _ Hlast). simpl.
  rewrite List.filter_app.
  set (remaining := (count args - of_length (messagesToClean s))%Q).
  assert (Hrem : (0 <= remaining)%Q) by (unfold remaining; lra).
  rewrite (slice0_nonneg _ _ Hrem).
  destruct Hall as [Hall|Hfull].
  - rewrite Hall. split.
    + apply prefix_app, prefix_take.
    + destruct (Nat.le_gt_cases (length (List.filter keep batch))
                  (Z.to_nat (Qfloor remaining))) as [Hle|Hgt].
      * left. by rewrite take_ge.
      * right. rewrite of_length_app, <- Hall.
        assert (Hlen : of_length (take (Z.to_nat (Qfloor remaining))
                                       (List.filter keep batch))
                       = inject_Z (Qfloor remaining)).
        { unfold of_length. rewrite length_take, Nat.min_l by lia.
          rewrite Z2Nat.id; [done|]. apply Qfloor_resp_le in Hrem. exact Hrem. }
        rewrite Hlen. pose proof (Qlt_floor remaining) as Hfl.
        rewrite inject_Z_plus in Hfl. change (inject_Z 1) with 1%Q in Hfl.
        unfold remaining in Hfl |- *. lra.
  - rewrite (Qfloor_small remaining) by (unfold remaining; lra).
    simpl. rewrite take_0, app_nil_r. split; [|by right].
    by apply prefix_app_r.
Qed.

Lemma clean_loop_in_order targetId store : ∀ s consumed,
  collected_in_order s consumed →
  collected_in_order (state_of (clean_loop targetId s store).2)
    (consumed ++ concat (map it_batch (clean_loop targetId s store).1)).
Proof.
  induction store as [|batch store IH]; intros s consumed Hs;
    destruct (Qltb (of_length (messagesToClean s)) (count args)) eqn:Hlt;
    try (rewrite clean_loop_done by done; simpl; by rewrite app_nil_r).
  - rewrite clean_loop_nil by done. simpl. by rewrite app_nil_r.
  - rewrite clean_loop_cons by done. cbv zeta. apply Qltb_true in Hlt.
    pose proof (loop_body_in_order s batch consumed Hs Hlt) as Hstep.
    destruct (loop_body s batch) as [s' c]. simpl in *.
    destruct c; simpl.
    + by rewrite app_nil_r.
    + rewrite app_assoc. by apply IH.
Qed.

Lemma consumed_batches targetId s store :
  map it_batch (clean_loop targetId s store).1
  = take (length (clean_loop targetId s store).1) store.
Proof.
  pose proof (pc_batch _ _ _ _ _ (paging_contract_from targetId store s)) as Hb.
  apply list_eq. intros i. rewrite list_lookup_fmap.
  destruct ((clean_loop targetId s store).1 !! i) as [it|] eqn:Hi; simpl.
  - rewrite lookup_take_lt by (by eapply lookup_lt_Some). symmetry. by apply Hb.
  - symmetry. apply lookup_ge_None. rewrite length_take.
    apply lookup_ge_None in Hi. lia.
Qed.

(** X11: the messages collected are the first ones, in the order of the
    store's answers, that the filter keeps: a prefix of the filtered
    concatenation of the batches consumed, and the whole of it unless less
    than one message is missing from [args.count]. *)
Theorem clean_collects_in_order store target :
  let its := (clean_loop (ch_id target) initial store).1 in
  let cleaned :=
    messagesToClean (state_of (clean_loop (ch_id target) initial store).2) in
  let consumed := concat (take (length its) store) in
  cleaned `prefix_of` List.filter keep consumed
  ∧ (cleaned = List.filter keep consumed
     ∨ (count args - 1 < of_length cleaned)%Q).
Proof.
  cbv zeta. rewrite <- consumed_batches.
  apply (clean_loop_in_order (ch_id target) store initial []).
  split; [done | by left].
Qed.

Lemma clean_loop_kept targetId store :
  Forall (λ message, keep message = true)
    (messagesToClean (state_of (clean_loop targetId initial store).2)).
Proof.
  apply (clean_loop_invariant
           (λ s, Forall (λ message, keep message = true) (messagesToClean s)));
    [|constructor].
  intros s batch Hs Hlt.
  destruct (loop_body_appends s batch Hlt) as (w & -> & [k Hk] & _).
  apply Forall_app. split; [done|]. apply Forall_forall. intros m Hm.
  assert (Hin : m ∈ List.filter keep batch).
  { rewrite Hk. apply elem_of_app. by left. }
  apply list_elem_of_In, filter_In in Hin. tauto.
Qed.

Lemma collected_sublist targetId store :
  messagesToClean (state_of (clean_loop targetId initial store).2)
  `sublist_of` concat store.
Proof.
  destruct (clean_loop_in_order targetId store initial []) as [Hpre _].
  { split; [done | by left]. }
  simpl in Hpre. rewrite consumed_batches in Hpre.
  assert (Hsub : messagesToClean (state_of (clean_loop targetId initial store).2)
                 `sublist_of`
                 List.filter keep
                   (concat (take (length (clean_loop targetId initial store).1) store))).
  { destruct Hpre as [k ->]. by apply sublist_inserts_r. }
  etrans; [exact Hsub|]. etrans; [apply filter_sublist|].
  set (n := length (clean_loop targetId initial store).1).
  assert (Hsplit : concat store = concat (take n store) ++ concat (drop n store)).
  { by rewrite <- concat_app, take_drop. }
  rewrite Hsplit. by apply sublist_inserts_r.
Qed.

(** X8: every id [run] deletes belongs to a message that the store
    returned and that the filter keeps; when the store never returns an id
    twice, no id is deleted twice. *)
Theorem clean_never_deletes_twice store :
  NoDup (map sm_id (concat store)) →
  ∀ e, e ∈ (run store).1 →
    NoDup (deleted_by e)
    ∧ ∀ id, id ∈ deleted_by e →
        ∃ message, message ∈ concat store ∧ sm_id message = id
                   ∧ keep message = true.
Proof.
  intros Hnd e He.
  assert (Hnone : deleted_by e = [] →
            NoDup (deleted_by e)
            ∧ ∀ id, id ∈ deleted_by e →
                ∃ message, message ∈ concat store ∧ sm_id message = id
                           ∧ keep message = true).
  { intros ->. split; [constructor|]. by intros id ?%elem_of_nil. }
  apply run_effects in He as [[text ->]|(t & Hacc & [He|[[s He]|(s & Hs & He)]])].
  - by apply Hnone.
  - apply fetches_are_fetches in He as [cursor ->]. by apply Hnone.
  - pose proof (pc_pending _ _ _ _ _
                  (paging_contract_from (ch_id t) store initial) s e He) as ->.
    by apply Hnone.
  - pose proof (collected_sublist (ch_id t) store) as Hsub.
    pose proof (clean_loop_kept (ch_id t) store) as Hkeep.
    rewrite Hs in Hsub, Hkeep. simpl in Hsub, Hkeep.
    assert (Hids : NoDup (map sm_id (sort_by_id (messagesToClean s)))
              ∧ ∀ id, id ∈ map sm_id (sort_by_id (messagesToClean s)) →
                  ∃ message, message ∈ concat store ∧ sm_id message = id
                             ∧ keep message = true).
    { split.
      - rewrite sort_by_id_Permutation.
        eapply sublist_NoDup; [exact Hnd|]. by apply fmap_sublist.
      - intros id (m & -> & Hm)%list_elem_of_fmap.
        rewrite sort_by_id_Permutation in Hm. exists m.
        split; [by eapply elem_of_sublist|]. split; [done|].
        rewrite Forall_forall in Hkeep. by apply Hkeep. }
    apply respond_effects in He
      as [[text ->]|[(ty & i0 & ->)|[->|[->|[->|[[u ->]|[[u ->]|[-> _]]]]]]]];
      simpl; try (by apply Hnone); exact Hids.
Qed.

Lemma clean_loop_within_count targetId store :
  in_range →
  within_count (state_of (clean_loop targetId initial store).2).
Proof.
  intros [Hpos _].
  apply (clean_loop_invariant within_count).
  - intros. by apply loop_body_within_count.
  - unfold within_count. change (of_length (messagesToClean initial)) with 0%Q. lra.
Qed.

(** The pass after which the loop was left. *)
Lemma loop_left targetId store s :
  in_range →
  (clean_loop targetId initial store).2 = Finished s →
  ∃ it, last (clean_loop targetId initial store).1 = Some it
        ∧ it_after it = s ∧ stop_condition it.
Proof.
  intros [Hpos _] Hfin.
  pose proof (paging_contract_from targetId store initial) as C.
  assert (Hlt : Qltb (of_length (messagesToClean initial)) (count args) = true).
  { apply Qltb_true. change (of_length (messagesToClean initial)) with 0%Q. lra. }
  destruct (last (clean_loop targetId initial store).1) as [it|] eqn:Hlast.
  - exists it. split; [done|].
    pose proof (pc_last _ _ _ _ _ C) as Hstate.
    rewrite Hlast, Hfin in Hstate. simpl in Hstate. split; [done|].
    rewrite last_lookup in Hlast.
    apply (pc_stop _ _ _ _ _ C _ _ Hlast). split; [|eauto].
    apply lookup_lt_Some in Hlast. lia.
  - exfalso. apply last_None in Hlast.
    destruct store as [|batch store].
    + rewrite clean_loop_nil in Hfin by done. discriminate.
    + rewrite clean_loop_cons in Hlast by done. cbv zeta in Hlast.
      destruct (loop_body initial batch).2; discriminate.
Qed.

(** X9: with a count in range, a loop that was left has collected exactly
    [args.count] messages, unless its last batch was empty or ended in a
    message older than the cutoff. *)
Theorem clean_stops_short_only_when_exhausted store target s :
  in_range →
  (clean_loop (ch_id target) initial store).2 = Finished s →
  (of_length (messagesToClean s) == count args)%Q
  ∨ ∃ it, last (clean_loop (ch_id target) initial store).1 = Some it
          ∧ it_after it = s
          ∧ (it_batch it = [] ∨ oldest_expired (it_batch it)).
Proof.
  intros Hrange Hfin.
  destruct (loop_left _ _ _ Hrange Hfin) as (it & Hlast & Hs & [H|[H|H]]);
    [right; exists it; auto | right; exists it; auto |].
  left. pose proof (clean_loop_within_count (ch_id target) store Hrange) as Hw.
  rewrite Hfin in Hw. unfold within_count in Hw. simpl in Hw.
  rewrite Hs in H. lra.
Qed.

(** X10: with a count in range that is not a whole number the quota is
    never met: the loop is only left on an empty batch or on a batch that
    ends in a message older than the cutoff. *)
Theorem clean_fractional_count_pages_on store target s :
  in_range →
  (∀ n : Z, ¬ (count args == inject_Z n)%Q) →
  (clean_loop (ch_id target) initial store).2 = Finished s →
  ∃ it, last (clean_loop (ch_id target) initial store).1 = Some it
        ∧ it_after it = s
        ∧ (it_batch it = [] ∨ oldest_expired (it_batch it)).
Proof.
  intros Hrange Hfrac Hfin.
  destruct (loop_left _ _ _ Hrange Hfin) as (it & Hlast & Hs & [H|[H|H]]);
    [exists it; auto | exists it; auto |].
  exfalso. pose proof (clean_loop_within_count (ch_id target) store Hrange) as Hw.
  rewrite Hfin in Hw. unfold within_count in Hw. simpl in Hw.
  rewrite Hs in H. apply (Hfrac (Z.of_nat (length (messagesToClean s)))).
  fold (of_length (messagesToClean s)). lra.
Qed.

(** X3: with a count in range, a [channel] option that names no channel of
    the guild, or a target that is not a text channel, gets the one reply
    "Invalid channel specified": nothing is fetched and nothing deleted. *)
Theorem run_invalid_channel store :
  in_range →
  (∀ target, targetChannel = Some target → ch_is_text target = false) →
  run store =
    ([SendErrorMessage (ch_id (msg_channel msg)) "Invalid channel specified"],
     Returned).
Proof.
  intros [Hpos Hmax] Hbad. unfold run.
  assert (Hhi : Qltb (inject_Z MAX_CLEAN_COUNT) (count args) = false)
    by (by apply Qltb_false).
  assert (Hlo : Qle_bool (count args) 0 = false).
  { apply not_true_is_false. rewrite Qle_bool_iff. lra. }
  rewrite Hhi, Hlo. simpl.
  destruct targetChannel as [target|]; [|done].
  by rewrite (Hbad target eq_refl).
Qed.

(** X4: with a count in range, a text channel other than the invoking one
    as target and no [can_clean] there for the author, [run] only replies
    "Missing permissions to use clean on that channel". *)
Theorem run_missing_permission store target :
  in_range →
  targetChannel = Some target →
  ch_is_text target = true →
  ch_id target ≠ ch_id (msg_channel msg) →
  can_clean pluginData (msg_author msg) (ch_id target) = false →
  run store =
    ([SendErrorMessage (ch_id (msg_channel msg))
        "Missing permissions to use clean on that channel"], Returned).
Proof.
  intros [Hpos Hmax] Htarget Htext Hother Hperm. unfold run.
  assert (Hhi : Qltb (inject_Z MAX_CLEAN_COUNT) (count args) = false)
    by (by apply Qltb_false).
  assert (Hlo : Qle_bool (count args) 0 = false).
  { apply not_true_is_false. rewrite Qle_bool_iff. lra. }
  rewrite Hhi, Hlo, Htarget, Htext, Hperm. simpl.
  by destruct (String.eqb_spec (ch_id target) (ch_id (msg_channel msg))).
Qed.

Lemma fetches_not_messages targetId s store :
  Forall (λ e, is_fetch e ∧ ¬ is_message e ∧ ¬ is_timer e)
    (map it_fetch (clean_loop targetId s store).1).
Proof.
  apply Forall_forall. intros e He.
  apply fetches_are_fetches in He as [cursor ->]. simpl. tauto.
Qed.

Lemma timer_of_cases target :
  timer_of target = [] ∨ timer_of target = [delayed_deletion].
Proof. unfold timer_of. destruct (String.eqb _ _); auto. Qed.

(** X6: a run that returns posts exactly one reply, in the invoking channel
    whatever the target; nothing before it is a message or a timer, and
    after it comes at most the delayed deletion. *)
Theorem run_replies_once store :
  (run store).2 = Returned →
  ∃ pre reply post,
    (run store).1 = pre ++ reply :: post
    ∧ is_reply reply
    ∧ Forall (λ e, ¬ is_message e ∧ ¬ is_timer e) pre
    ∧ (post = [] ∨ post = [delayed_deletion]).
Proof.
  intros Hret. destruct accepted_target as [target|] eqn:Hacc.
  - rewrite (run_accepted store target Hacc) in Hret |- *.
    pose proof (fetches_not_messages (ch_id target) initial store) as Hf.
    destruct (clean_loop (ch_id target) initial store).2 as [s|s f];
      [|discriminate]. simpl.
    destruct (messagesToClean s) as [|first rest].
    + rewrite respond_nil. simpl.
      eexists _, _, _. split; [reflexivity|]. split; [eexists; eauto|].
      split; [|apply timer_of_cases].
      eapply Forall_impl; [exact Hf|]. simpl. tauto.
    + rewrite respond_cons. cbv zeta. simpl.
      set (ids := map sm_id (sort_by_id (first :: rest))).
      exists (map it_fetch (clean_loop (ch_id target) initial store).1
              ++ [IgnoreLog MESSAGE_DELETE (sm_id first);
                  IgnoreLog MESSAGE_DELETE_BULK (sm_id first)]
              ++ map (IgnoreLog MESSAGE_DELETE) ids
              ++ [IgnoreLog MESSAGE_DELETE_BULK (default "" (head ids));
                  DeleteMessages (ch_id target) ids;
                  MarkBulkAsDeleted ids;
                  CreateFromSavedMessages (sort_by_id (first :: rest));
                  LogClean (msg_author msg) (ch_id target)
                    (length (sort_by_id (first :: rest)))
                    (getUrl pluginData (getBaseUrl pluginData)
                       (createFromSavedMessages pluginData
                          (sort_by_id (first :: rest))))]).
      eexists _, _. split; [|split; [eexists; eauto|split; [|apply timer_of_cases]]].
      * rewrite <- !app_assoc. simpl. rewrite <- ?app_assoc. reflexivity.
      * apply Forall_app. split.
        { eapply Forall_impl; [exact Hf|]. simpl. tauto. }
        apply Forall_app. split; [repeat constructor; simpl; tauto|].
        apply Forall_app. split; [|repeat constructor; simpl; tauto].
        apply Forall_fmap, Forall_forall. intros id _. simpl. tauto.
  - destruct (run_rejected store Hacc) as [text Hrun]. rewrite Hrun. simpl.
    exists [], (SendErrorMessage (ch_id (msg_channel msg)) text), [].
    split; [done|]. split; [eexists; eauto|]. split; [constructor | auto].
Qed.

(** X13: [run] pages first and acts afterwards: its effects are a block of
    fetches followed by effects that are not fetches, and while it waits
    for the store it has posted and deleted nothing. *)
Theorem run_pages_before_acting store :
  ∃ fetches rest,
    (run store).1 = fetches ++ rest
    ∧ Forall is_fetch fetches
    ∧ Forall (λ e, ¬ is_fetch e) rest
    ∧ ((run store).2 = AwaitingStore → rest = []).
Proof.
  destruct accepted_target as [target|] eqn:Hacc.
  - rewrite (run_accepted store target Hacc).
    pose proof (fetches_not_messages (ch_id target) initial store) as Hf.
    pose proof (paging_contract_from (ch_id target) store initial) as C.
    destruct (clean_loop (ch_id target) initial store).2 as [s|s f] eqn:Hres;
      simpl.
    + eexists _, _. split; [reflexivity|]. split.
      { eapply Forall_impl; [exact Hf|]. simpl. tauto. }
      split; [|by rewrite respond_returned].
      apply Forall_forall. intros e He.
      apply respond_effects in He
        as [[text ->]|[(ty & i0 & ->)|[->|[->|[->|[[u ->]|[[u ->]|[-> _]]]]]]]];
        simpl; tauto.
    + exists (map it_fetch (clean_loop (ch_id target) initial store).1 ++ [f]), [].
      split; [by rewrite app_nil_r|]. split; [|split; [constructor | done]].
      apply Forall_app. split.
      { eapply Forall_impl; [exact Hf|]. simpl. tauto. }
      rewrite (pc_pending _ _ _ _ _ C s f eq_refl). by repeat constructor.
  - destruct (run_rejected store Hacc) as [text Hrun]. rewrite Hrun. simpl.
    exists [], [SendErrorMessage (ch_id (msg_channel msg)) text].
    split; [done|]. split; [constructor|]. split; [|discriminate].
    repeat constructor. simpl. tauto.
Qed.


(** X12: [cleanMessages] fails on an empty array ([savedMessages[0].id]),
    and [run] never fails that way: it calls [cleanMessages] with at least
    one message. *)
Theorem clean_never_throws store :
  (∀ target moderator, cleanMessages pluginData target [] moderator = None)
  ∧ (run store).2 ≠ Threw.
Proof. split; [done | apply run_never_throws]. Qed.

End Run.

(** ** A sample invocation

    A guild with two text channels; the command is typed in [general] by a
    moderator; the store holds three messages of [general], one of them
    two days old. *)

Definition sample_invite_codes (content : string) : list string :=
  if String.prefix "discord.gg/" content then [content] else [].

Definition general : Channel := {| ch_id := "300"; ch_is_text := true |}.
Definition lounge : Channel := {| ch_id := "301"; ch_is_text := true |}.

Definition sample_msg : Message :=
  {| msg_id := "1000"; msg_channel := general; msg_author := "42";
     msg_timestamp := 200000000 |}.

Definition sample_pluginData : PluginData :=
  {| guild_channels := list_to_map [("300", general); ("301", lounge)];
     can_clean := λ _ _, true;
     createFromSavedMessages := λ _, "a1";
     getUrl := λ baseUrl archiveId, baseUrl +:+ "/archives/" +:+ archiveId;
     getBaseUrl := "https://zeppelin.example";
     response_id := "1001" |}.

Definition sample_args (n : Q) (target : option string) : Args :=
  {| count := n; user := None; channel := target; bots := false;
     has_invites := false |}.

Definition sample_saved (i u : string) (posted : Z) : SavedMessage :=
  {| sm_id := i; sm_user_id := u; sm_is_bot := false;
     sm_content := Some "hello"; sm_posted_at := posted |}.

Definition sample_store : list (list SavedMessage) :=
  [[sample_saved "0999" "7" 199999000; sample_saved "0998" "8" 199998000];
   [sample_saved "0997" "7" 27200000];
   []].

Example sample_run :
  run sample_invite_codes sample_msg (sample_args 3 None) sample_pluginData
      sample_store
  = ([GetLatestByChannelBeforeId "300" "1000" 3;
      GetLatestByChannelBeforeId "300" "0998" 3;
      IgnoreLog MESSAGE_DELETE "0999";
      IgnoreLog MESSAGE_DELETE_BULK "0999";
      IgnoreLog MESSAGE_DELETE "0998";
      IgnoreLog MESSAGE_DELETE "0999";
      IgnoreLog MESSAGE_DELETE_BULK "0998";
      DeleteMessages "300" ["0998"; "0999"];
      MarkBulkAsDeleted ["0998"; "0999"];
      CreateFromSavedMessages
        [sample_saved "0998" "8" 199998000; sample_saved "0999" "7" 199999000];
      LogClean "42" "300" 2 "https://zeppelin.example/archives/a1";
      SendSuccessMessage "300" "Cleaned 2 messages";
      SetTimeout [DeleteCatchNoop "1000"; DeleteCatchNoop "1001"] 5000],
     Returned).
Proof. reflexivity. Qed.

Example sample_run_fractional :
  (run sample_invite_codes sample_msg (sample_args (3 # 2) (Some "301"))
       sample_pluginData sample_store).1
  = [GetLatestByChannelBeforeId "301" "1000" (3 # 2);
     GetLatestByChannelBeforeId "301" "0998" (3 # 2);
     IgnoreLog MESSAGE_DELETE "0999";
     IgnoreLog MESSAGE_DELETE_BULK "0999";
     IgnoreLog MESSAGE_DELETE "0999";
     IgnoreLog MESSAGE_DELETE_BULK "0999";
     DeleteMessages "301" ["0999"];
     MarkBulkAsDeleted ["0999"];
     CreateFromSavedMessages [sample_saved "0999" "7" 199999000];
     LogClean "42" "301" 1 "https://zeppelin.example/archives/a1";
     SendSuccessMessage "300"
       ("Cleaned 1 message in <#301>" +:+ newline
        +:+ "https://zeppelin.example/archives/a1")].
Proof. reflexivity. Qed.

(** [!clean 151]: out of range. *)
Lemma clean_count_out_of_range_witness :
  ((inject_Z MAX_CLEAN_COUNT < 151)%Q ∨ (151 <= 0)%Q)
  ∧ (run sample_invite_codes sample_msg (sample_args 151 None)
         sample_pluginData sample_store
     = ([SendErrorMessage "300" "Clean count must be between 1 and 150"],
        Returned)).
Proof.
  assert (H : (inject_Z MAX_CLEAN_COUNT < count (sample_args 151 None))%Q
              ∨ (count (sample_args 151 None) <= 0)%Q).
  { left. reflexivity. }
  split; [exact H|].
  exact (proj1 (proj2 (clean_count_out_of_range sample_invite_codes sample_msg
                         (sample_args 151 None) sample_pluginData sample_store H))).
Defined.

(** [!clean 3]: at most three messages are collected. *)
Lemma clean_at_most_count_witness :
  in_range (sample_args 3 None)
  ∧ within_count (sample_args 3 None)
      (state_of (clean_loop sample_invite_codes sample_msg (sample_args 3 None)
                   "300" (initial sample_msg) sample_store).2).
Proof.
  assert (H : in_range (sample_args 3 None)).
  { split; [reflexivity | discriminate]. }
  split; [exact H|].
  exact (proj1 (proj2 (clean_at_most_count sample_invite_codes sample_msg
                         (sample_args 3 None) sample_pluginData sample_store
                         general H))).
Defined.

(** [!clean 0] typed in [general] targets [general], is rejected by the
    first guard, and schedules nothing. *)
Lemma clean_zero_not_scheduled :
  ¬ scheduled_iff_same_channel sample_invite_codes sample_msg
      (sample_args 0 None) sample_pluginData sample_store.
Proof.
  unfold scheduled_iff_same_channel. intros [H _].
  assert (Hsame : targets_invoking_channel sample_msg (sample_args 0 None)
                    sample_pluginData).
  { exists general. split; reflexivity. }
  apply H in Hsame. vm_compute in Hsame.
  apply list_elem_of_singleton in Hsame. discriminate.
Qed.

(** [!clean 3] typed in [general], no call rejecting: the run returns and
    the two deletions are scheduled. *)
Lemma clean_delayed_deletion_witness :
  [] ∈ sample_store
  ∧ (run_with sample_invite_codes sample_msg (sample_args 3 None)
       sample_pluginData (λ _, false) sample_store).2 = Settled Returned
  ∧ SetTimeout [DeleteCatchNoop "1000"; DeleteCatchNoop "1001"] 5000
    ∈ (run_with sample_invite_codes sample_msg (sample_args 3 None)
         sample_pluginData (λ _, false) sample_store).1.
Proof.
  assert (Hin : [] ∈ sample_store).
  { unfold sample_store. do 2 right. left. }
  destruct (clean_delayed_deletion sample_invite_codes sample_msg
              (sample_args 3 None) sample_pluginData (λ _, false) sample_store)
    as (_ & Hiff & _ & Hret & _).
  assert (Hreturned : (run_with sample_invite_codes sample_msg
                         (sample_args 3 None) sample_pluginData (λ _, false)
                         sample_store).2 = Settled Returned).
  { apply (Hret Hin). intros; reflexivity. }
  split; [exact Hin|]. split; [exact Hreturned|].
  apply (Hiff Hreturned). exists general.
  split; reflexivity.
Defined.

(** The same invocation when [deleteMessages], the call at position 7 of
    the trace, rejects: the run rejects there and schedules nothing. *)
Example sample_run_rejected :
  run_with sample_invite_codes sample_msg (sample_args 3 None)
    sample_pluginData (λ i, i =? 7)%nat sample_store
  = ([GetLatestByChannelBeforeId "300" "1000" 3;
      GetLatestByChannelBeforeId "300" "0998" 3;
      IgnoreLog MESSAGE_DELETE "0999";
      IgnoreLog MESSAGE_DELETE_BULK "0999";
      IgnoreLog MESSAGE_DELETE "0998";
      IgnoreLog MESSAGE_DELETE "0999";
      IgnoreLog MESSAGE_DELETE_BULK "0998";
      DeleteMessages "300" ["0998"; "0999"]],
     Rejected).
Proof. reflexivity. Qed.

Lemma run_with_no_rejection getInviteCodesInString msg args pluginData store :
  (run_with getInviteCodesInString msg args pluginData (λ _, false) store).1
  = (run getInviteCodesInString msg args pluginData store).1
  ∧ (run_with getInviteCodesInString msg args pluginData (λ _, false) store).2
    = Settled (run getInviteCodesInString msg args pluginData store).2.
Proof.
  unfold run_with. destruct accepted_target; [|done].
  pose proof (until_rejection_none (λ _, false)
                (run getInviteCodesInString msg args pluginData store).1 0) as Hr.
  pose proof (until_rejection_complete (λ _, false)
                (run getInviteCodesInString msg args pluginData store).1 0) as Hc.
  destruct (until_rejection _ 0 _) as [done rejected]. simpl in *.
  rewrite Hr in * by done. split; [by apply Hc | done].
Qed.

(** ** More on [cleanMessages] *)

(** [a.id < b.id], on strings. *)
Definition id_before (a b : string) : Prop := String.ltb a b = true.

Lemma ltb_false_total (a b : string) :
  String.ltb b a = false ∨ String.ltb a b = false.
Proof.
  unfold String.ltb. rewrite (String.compare_antisym a b).
  destruct (String.compare b a); simpl; auto.
Qed.

Lemma ltb_false_neq (a b : string) :
  String.ltb b a = false → a ≠ b → String.ltb a b = true.
Proof.
  unfold String.ltb. rewrite (String.compare_antisym a b).
  destruct (String.compare b a) eqn:Hc; simpl; try done.
  intros _ Hne. apply String.compare_eq_iff in Hc. congruence.
Qed.

Lemma id_not_after_total : Total id_not_after.
Proof. intros a b. apply ltb_false_total. Qed.

Lemma sort_by_id_sorted savedMessages :
  Sorted (λ a b, String.ltb b a = false) (map sm_id (sort_by_id savedMessages)).
Proof.
  apply (Sorted_fmap sm_id id_not_after); [done|].
  apply Sorted_merge_sort, id_not_after_total.
Qed.

Lemma Sorted_strict (ids : list string) :
  Sorted (λ a b, String.ltb b a = false) ids → NoDup ids → Sorted id_before ids.
Proof.
  induction 1 as [|a ids Hs IH Hhd]; intros Hnd; [constructor|].
  apply NoDup_cons in Hnd as [Ha Hnd]. constructor; [by apply IH|].
  destruct Hhd as [|b ids' Hab]; constructor.
  apply ltb_false_neq; [done|]. intros ->. apply Ha. by left.
Qed.

(** X1: [cleanMessages], given at least one message and distinct ids,
    deletes, marks as deleted and archives exactly the messages it was
    given, in ascending order of id ("delete & archive in ID order"): the
    ids of the one bulk deletion are a strictly sorted permutation of the
    ids given, the archive is built from the same messages in the same
    order, and the log entry counts them all. *)
Theorem cleanMessages_deletes_in_id_order pluginData channel savedMessages moderator :
  savedMessages ≠ [] →
  NoDup (map sm_id savedMessages) →
  ∃ effects archiveUrl ids archived,
    cleanMessages pluginData channel savedMessages moderator
      = Some (effects, archiveUrl)
    ∧ ids ≡ₚ map sm_id savedMessages
    ∧ Sorted id_before ids
    ∧ archived ≡ₚ savedMessages
    ∧ map sm_id archived = ids
    ∧ (∀ e, e ∈ effects → deleted_by e = [] ∨ deleted_by e = ids)
    ∧ (∀ e, e ∈ effects → archived_by e = [] ∨ archived_by e = archived)
    ∧ DeleteMessages (ch_id channel) ids ∈ effects
    ∧ MarkBulkAsDeleted ids ∈ effects
    ∧ CreateFromSavedMessages archived ∈ effects
    ∧ LogClean moderator (ch_id channel) (length savedMessages) archiveUrl ∈ effects.
Proof.
  intros Hne Hnd. destruct savedMessages as [|first rest]; [done|].
  set (savedMessages := first :: rest) in *.
  pose proof (sort_by_id_Permutation savedMessages) as Hperm.
  eexists _, _, (map sm_id (sort_by_id savedMessages)), (sort_by_id savedMessages).
  split; [reflexivity|].
  split; [by rewrite Hperm|].
  split.
  { apply Sorted_strict; [apply sort_by_id_sorted | by rewrite Hperm]. }
  split; [done|]. split; [done|].
  rewrite (Permutation_length Hperm).
  split; [|split].
  - intros e. cbn [app].
    rewrite !elem_of_cons, !elem_of_app, !elem_of_cons, list_elem_of_fmap.
    intros [->|[->|[(id & -> & _)|[->|[->|[->|[->|[->|H]]]]]]]]; simpl; auto.
    by apply elem_of_nil in H.
  - intros e. cbn [app].
    rewrite !elem_of_cons, !elem_of_app, !elem_of_cons, list_elem_of_fmap.
    intros [->|[->|[(id & -> & _)|[->|[->|[->|[->|[->|H]]]]]]]]; simpl; auto.
    by apply elem_of_nil in H.
  - cbn [app]. rewrite !elem_of_cons, !elem_of_app, !elem_of_cons. auto 20.
Qed.

(** X2: [cleanMessages] keeps the deletions from being logged twice:
    before the bulk deletion it has done nothing but [ignoreLog] calls,
    among them a [MESSAGE_DELETE] one for every id it deletes and a
    [MESSAGE_DELETE_BULK] one for the first id of the deletion; it deletes
    only once. *)
Theorem cleanMessages_ignores_before_deleting
    pluginData channel savedMessages moderator effects archiveUrl :
  cleanMessages pluginData channel savedMessages moderator
    = Some (effects, archiveUrl) →
  ∃ pre ids post,
    effects = pre ++ DeleteMessages (ch_id channel) ids :: post
    ∧ Forall (λ e, ∃ type id, e = IgnoreLog type id) pre
    ∧ (∀ id, id ∈ ids → IgnoreLog MESSAGE_DELETE id ∈ pre)
    ∧ (∃ first, head ids = Some first
                ∧ IgnoreLog MESSAGE_DELETE_BULK first ∈ pre)
    ∧ Forall (λ e, ∀ c ids', e ≠ DeleteMessages c ids') post.
Proof.
  destruct savedMessages as [|first rest]; [discriminate|].
  set (savedMessages := first :: rest). unfold cleanMessages. fold savedMessages.
  cbv zeta. intros [= <- <-].
  set (ids := map sm_id (sort_by_id savedMessages)).
  exists ([IgnoreLog MESSAGE_DELETE (sm_id first);
           IgnoreLog MESSAGE_DELETE_BULK (sm_id first)]
          ++ map (IgnoreLog MESSAGE_DELETE) ids
          ++ [IgnoreLog MESSAGE_DELETE_BULK (default "" (head ids))]), ids.
  eexists. split; [|split; [|split; [|split]]].
  - cbn [app]. rewrite <- app_assoc. reflexivity.
  - apply Forall_app. split; [repeat constructor; eauto|].
    apply Forall_app. split; [|repeat constructor; eauto].
    apply Forall_fmap, Forall_forall. intros id _. simpl. eauto.
  - intros id Hid. apply elem_of_app. right. apply elem_of_app. left.
    by apply list_elem_of_fmap_2.
  - destruct ids as [|i0 ids'] eqn:Hids.
    + exfalso. apply (f_equal length) in Hids. unfold ids in Hids.
      rewrite length_map, (Permutation_length (sort_by_id_Permutation _)) in Hids.
      discriminate.
    + exists i0. split; [done|]. simpl.
      rewrite !elem_of_cons, !elem_of_app, !elem_of_cons. auto 10.
  - repeat constructor; intros ? ?; discriminate.
Qed.

(** ** More on the guards *)

(** [pluginData] with another [can_clean] configuration. *)
Definition with_can_clean (f : string → string → bool) (pluginData : PluginData)
  : PluginData :=
  {| guild_channels := guild_channels pluginData;
     can_clean := f;
     createFromSavedMessages := createFromSavedMessages pluginData;
     getUrl := getUrl pluginData;
     getBaseUrl := getBaseUrl pluginData;
     response_id := response_id pluginData |}.

(** X5: when the target is the invoking channel, [run] does not consult the
    [can_clean] configuration: whatever it is, the run is the same. *)
Theorem run_own_channel_ignores_permission
    getInviteCodesInString msg args pluginData f store :
  targets_invoking_channel msg args pluginData →
  run getInviteCodesInString msg args (with_can_clean f pluginData) store
  = run getInviteCodesInString msg args pluginData store.
Proof.
  intros (target & Htarget & Hsame). unfold run.
  change (targetChannel msg args (with_can_clean f pluginData))
    with (targetChannel msg args pluginData).
  rewrite Htarget, Hsame, String.eqb_refl. reflexivity.
Qed.

(** ** Sample runs of the further properties *)

Definition sample_cleaned : list SavedMessage :=
  [sample_saved "0999" "7" 199999000; sample_saved "0998" "8" 199998000].

Lemma cleanMessages_deletes_in_id_order_witness :
  sample_cleaned ≠ []
  ∧ NoDup (map sm_id sample_cleaned)
  ∧ ∃ ids, ids ≡ₚ map sm_id sample_cleaned ∧ Sorted id_before ids.
Proof.
  assert (Hne : sample_cleaned ≠ []) by discriminate.
  assert (Hnd : NoDup (map sm_id sample_cleaned)).
  { apply (bool_decide_unpack _). by vm_compute. }
  split; [exact Hne|]. split; [exact Hnd|].
  destruct (cleanMessages_deletes_in_id_order sample_pluginData general
              sample_cleaned "42" Hne Hnd)
    as (effects & archiveUrl & ids & archived & _ & Hperm & Hsorted & _).
  exists ids. split; assumption.
Defined.

Lemma cleanMessages_ignores_before_deleting_witness :
  ∃ effects archiveUrl,
    cleanMessages sample_pluginData general sample_cleaned "42"
      = Some (effects, archiveUrl)
    ∧ ∃ pre ids post,
        effects = pre ++ DeleteMessages "300" ids :: post
        ∧ ∀ id, id ∈ ids → IgnoreLog MESSAGE_DELETE id ∈ pre.
Proof.
  destruct (cleanMessages sample_pluginData general sample_cleaned "42")
    as [[effects archiveUrl]|] eqn:H; [|discriminate].
  exists effects, archiveUrl. split; [reflexivity|].
  destruct (cleanMessages_ignores_before_deleting _ _ _ _ _ _ H)
    as (pre & ids & post & Heq & _ & Hlog & _).
  exists pre, ids, post. split; assumption.
Defined.

(** [!clean 3 -c 999]: no such channel in the guild. *)
Lemma run_invalid_channel_witness :
  in_range (sample_args 3 (Some "999"))
  ∧ (∀ target, targetChannel sample_msg (sample_args 3 (Some "999"))
                 sample_pluginData = Some target →
               ch_is_text target = false)
  ∧ run sample_invite_codes sample_msg (sample_args 3 (Some "999"))
        sample_pluginData sample_store
    = ([SendErrorMessage "300" "Invalid channel specified"], Returned).
Proof.
  assert (Hr : in_range (sample_args 3 (Some "999"))).
  { split; [reflexivity | discriminate]. }
  assert (Hbad : ∀ target, targetChannel sample_msg (sample_args 3 (Some "999"))
                             sample_pluginData = Some target →
                           ch_is_text target = false).
  { intros target H. vm_compute in H. discriminate. }
  split; [exact Hr|]. split; [exact Hbad|].
  exact (run_invalid_channel sample_invite_codes sample_msg
           (sample_args 3 (Some "999")) sample_pluginData sample_store Hr Hbad).
Defined.

(** The sample guild, with [can_clean] denied everywhere. *)
Definition strict_pluginData : PluginData :=
  with_can_clean (λ _ _, false) sample_pluginData.

(** [!clean 3 -c 301] without the permission in [lounge]. *)
Lemma run_missing_permission_witness :
  in_range (sample_args 3 (Some "301"))
  ∧ targetChannel sample_msg (sample_args 3 (Some "301")) strict_pluginData
    = Some lounge
  ∧ ch_is_text lounge = true
  ∧ ch_id lounge ≠ ch_id (msg_channel sample_msg)
  ∧ can_clean strict_pluginData (msg_author sample_msg) (ch_id lounge) = false
  ∧ run sample_invite_codes sample_msg (sample_args 3 (Some "301"))
        strict_pluginData sample_store
    = ([SendErrorMessage "300"
          "Missing permissions to use clean on that channel"], Returned).
Proof.
  assert (Hr : in_range (sample_args 3 (Some "301"))).
  { split; [reflexivity | discriminate]. }
  assert (Hne : ch_id lounge ≠ ch_id (msg_channel sample_msg)) by discriminate.
  split; [exact Hr|]. split; [reflexivity|]. split; [reflexivity|].
  split; [exact Hne|]. split; [reflexivity|].
  exact (run_missing_permission sample_invite_codes sample_msg
           (sample_args 3 (Some "301")) strict_pluginData sample_store lounge
           Hr eq_refl eq_refl Hne eq_refl).
Defined.

(** [!clean 3] in [general] without the permission: it runs as before. *)
Lemma run_own_channel_ignores_permission_witness :
  targets_invoking_channel sample_msg (sample_args 3 None) sample_pluginData
  ∧ run sample_invite_codes sample_msg (sample_args 3 None) strict_pluginData
        sample_store
    = run sample_invite_codes sample_msg (sample_args 3 None) sample_pluginData
        sample_store.
Proof.
  assert (H : targets_invoking_channel sample_msg (sample_args 3 None)
                sample_pluginData).
  { exists general. split; reflexivity. }
  split; [exact H|].
  exact (run_own_channel_ignores_permission sample_invite_codes sample_msg
           (sample_args 3 None) sample_pluginData (λ _ _, false) sample_store H).
Defined.

Lemma run_replies_once_witness :
  (run sample_invite_codes sample_msg (sample_args 3 None) sample_pluginData
       sample_store).2 = Returned
  ∧ ∃ pre reply post,
      (run sample_invite_codes sample_msg (sample_args 3 None)
           sample_pluginData sample_store).1 = pre ++ reply :: post
      ∧ is_reply sample_msg reply.
Proof.
  assert (H : (run sample_invite_codes sample_msg (sample_args 3 None)
                   sample_pluginData sample_store).2 = Returned)
    by reflexivity.
  split; [exact H|].
  destruct (run_replies_once sample_invite_codes sample_msg (sample_args 3 None)
              sample_pluginData sample_store H)
    as (pre & reply & post & Heq & Hreply & _).
  exists pre, reply, post. split; assumption.
Defined.

Lemma clean_never_deletes_twice_witness :
  NoDup (map sm_id (concat sample_store))
  ∧ NoDup (deleted_by (DeleteMessages "300" ["0998"; "0999"])).
Proof.
  assert (Hnd : NoDup (map sm_id (concat sample_store))).
  { apply (bool_decide_unpack _). by vm_compute. }
  split; [exact Hnd|].
  refine (proj1 (clean_never_deletes_twice sample_invite_codes sample_msg
                   (sample_args 3 None) sample_pluginData sample_store Hnd
                   (DeleteMessages "300" ["0998"; "0999"]) _)).
  rewrite sample_run. simpl. do 7 right. left.
Defined.

(** [!clean 3] finds two messages only: the second batch reached a message
    older than a day. *)
Lemma clean_stops_short_only_when_exhausted_witness :
  let s := {| messagesToClean := sample_cleaned; beforeId := "0997" |} in
  in_range (sample_args 3 None)
  ∧ (clean_loop sample_invite_codes sample_msg (sample_args 3 None) "300"
       (initial sample_msg) sample_store).2 = Finished s
  ∧ ((of_length (messagesToClean s) == 3)%Q
     ∨ ∃ it, it_after it = s
             ∧ (it_batch it = []
                ∨ oldest_expired sample_msg (it_batch it))).
Proof.
  intros s.
  assert (Hr : in_range (sample_args 3 None)).
  { split; [reflexivity | discriminate]. }
  assert (Hfin : (clean_loop sample_invite_codes sample_msg (sample_args 3 None)
                    (ch_id general) (initial sample_msg) sample_store).2
                 = Finished s) by reflexivity.
  split; [exact Hr|]. split; [exact Hfin|].
  destruct (clean_stops_short_only_when_exhausted sample_invite_codes sample_msg
              (sample_args 3 None) sample_store general s Hr Hfin)
    as [H|(it & _ & Hs & Hwhy)].
  - left. exact H.
  - right. exists it. split; assumption.
Defined.

(** [!clean 1.5] *)
Lemma clean_fractional_count_pages_on_witness :
  let s := {| messagesToClean := [sample_saved "0999" "7" 199999000];
              beforeId := "0997" |} in
  in_range (sample_args (3 # 2) None)
  ∧ (∀ n : Z, ¬ (3 # 2 == inject_Z n)%Q)
  ∧ (clean_loop sample_invite_codes sample_msg (sample_args (3 # 2) None) "300"
       (initial sample_msg) sample_store).2 = Finished s
  ∧ ∃ it, it_after it = s
          ∧ (it_batch it = [] ∨ oldest_expired sample_msg (it_batch it)).
Proof.
  intros s.
  assert (Hr : in_range (sample_args (3 # 2) None)).
  { split; [reflexivity | discriminate]. }
  assert (Hfrac : ∀ n : Z, ¬ (count (sample_args (3 # 2) None) == inject_Z n)%Q).
  { intros n H. unfold Qeq in H. simpl in H. lia. }
  assert (Hfin : (clean_loop sample_invite_codes sample_msg
                    (sample_args (3 # 2) None) (ch_id general)
                    (initial sample_msg) sample_store).2
                 = Finished s) by reflexivity.
  split; [exact Hr|]. split; [exact Hfrac|]. split; [exact Hfin|].
  destruct (clean_fractional_count_pages_on sample_invite_codes sample_msg
              (sample_args (3 # 2) None) sample_store general s Hr Hfrac Hfin)
    as (it & _ & Hs & Hwhy).
  exists it. split; assumption.
Defined.

End Clean.

(* ===================================================================== *)
(** * The spam tracker *)
(* ===================================================================== *)

Module SpamTracker.

Local Open Scope Z_scope.

(** Modelled from the spec: a [SpamPoint] (section 3), "one unit of spam
    weight ... carrying a timestamp and a weight". The spam counter is not
    among the source files; this module follows sections 3 and 4.2 of the
    specification. *)
Record SpamPoint := {
  timestamp : Z;
  weight : Z;
}.

(** Modelled from the spec: [SpamWindowState] (section 3), "an ordered
    sequence of SpamPoints still inside the configured window", with the
    running total of section 4.2 ("sum is maintained incrementally"). The
    oldest point is at the head. *)
Record SpamWindowState := {
  points : list SpamPoint;
  total : Z;
}.

(** Modelled from the spec: the key [(tenant, actor, kind)]. *)
Definition Key : Type := string * string * string.

(** Modelled from the spec: the state "created lazily on first point for a
    key". *)
Definition empty_window : SpamWindowState := {| points := []; total := 0 |}.

(** Modelled from the spec: "append-only at the tail since events arrive
    in approximately real time; out-of-order arrival ... is treated as
    insert in order". The point goes behind the points that are not newer. *)
Fixpoint insert_in_order (p : SpamPoint) (pts : list SpamPoint) : list SpamPoint :=
  match pts with
  | [] => [p]
  | q :: rest =>
    if timestamp p <? timestamp q then p :: pts
    else q :: insert_in_order p rest
  end.

(** Modelled from the spec: the purge of the points older than [cutoff].
    "Expired points are only ever at the head"; the running total is
    adjusted for every point dropped. *)
Fixpoint purge (cutoff : Z) (pts : list SpamPoint) (sum : Z) : SpamWindowState :=
  match pts with
  | [] => {| points := []; total := sum |}
  | q :: rest =>
    if timestamp q <? cutoff then purge cutoff rest (sum - weight q)
    else {| points := pts; total := sum |}
  end.

(** Modelled from the spec: [addPoint] on the window of one key: insert,
    add the weight to the total, purge what is older than
    [timestamp - windowSize]. *)
Definition add_to_window (w : SpamWindowState) (p : SpamPoint) (windowSize : Z)
  : SpamWindowState :=
  purge (timestamp p - windowSize) (insert_in_order p (points w)) (total w + weight p).

(** Modelled from the spec: [addPoint(tenant, actor, kind, timestamp,
    weight, windowSize) -> currentWindowCount] (section 4.2): "appends a
    SpamPoint, purges points older than [timestamp - windowSize] for that
    key, and returns the sum of weights remaining in the window". The clamp
    of section 7 concerns timestamps beyond the skew tolerance, which the
    specification leaves open; within the tolerance timestamps are taken
    as they come. *)
Definition addPoint (tracker : gmap Key SpamWindowState)
    (tenant actor kind : string) (timestamp weight windowSize : Z)
  : Z * gmap Key SpamWindowState :=
  let key := (tenant, actor, kind) in
  let w := default empty_window (tracker !! key) in
  let w' := add_to_window w {| timestamp := timestamp; weight := weight |} windowSize in
  (total w', <[key := w']> tracker).

(** A sequence of [addPoint] calls for one key and one window size, with
    the count that each call returns. *)
Fixpoint addPoints (tracker : gmap Key SpamWindowState)
    (tenant actor kind : string) (windowSize : Z) (pts : list SpamPoint)
  : list Z * gmap Key SpamWindowState :=
  match pts with
  | [] => ([], tracker)
  | p :: rest =>
    let '(n, tracker') :=
      addPoint tracker tenant actor kind (timestamp p) (weight p) windowSize in
    let '(ns, tracker'') := addPoints tracker' tenant actor kind windowSize rest in
    (n :: ns, tracker'')
  end.

(** ** Statements *)

Definition sum_weights (pts : list SpamPoint) : Z :=
  foldr (λ p acc, weight p + acc) 0 pts.

(** [timestamp >= now - W] *)
Definition in_window (now windowSize : Z) (p : SpamPoint) : Prop :=
  now - windowSize ≤ timestamp p.

#[global] Instance in_window_dec now windowSize p : Decision (in_window now windowSize p).
Proof. unfold in_window. apply _. Defined.

(** The sum of the weights of the points whose timestamp is at least
    [now - windowSize]. *)
Definition window_sum (now windowSize : Z) (pts : list SpamPoint) : Z :=
  sum_weights (filter (in_window now windowSize) pts).

(** The counts the specification promises (section 8): the call that adds
    [p] after the points [added] returns the window sum, at the time of
    [p], of the points added so far. *)
Fixpoint expected_counts (windowSize : Z) (added pts : list SpamPoint) : list Z :=
  match pts with
  | [] => []
  | p :: rest =>
    window_sum (timestamp p) windowSize (added ++ [p])
    :: expected_counts windowSize (added ++ [p]) rest
  end.

(** The points were added within a window [windowSize]: no two of them
    are further apart. In particular no point arrives more than a window
    late. *)
Definition within_window (windowSize : Z) (pts : list SpamPoint) : Prop :=
  ∀ p q, p ∈ pts → q ∈ pts → timestamp p - timestamp q ≤ windowSize.

(** Every point that the call before [p] found expired is expired for [p]
    as well. It holds when timestamps never decrease and when all points
    lie within one window. *)
Fixpoint purge_stable (windowSize : Z) (added pts : list SpamPoint) : Prop :=
  match pts with
  | [] => True
  | p :: rest =>
    (∀ q x, last added = Some q → x ∈ added →
            in_window (timestamp p) windowSize x →
            in_window (timestamp q) windowSize x)
    ∧ purge_stable windowSize (added ++ [p]) rest
  end.

Definition by_time (p q : SpamPoint) : Prop := timestamp p ≤ timestamp q.

(** The newest timestamp among the points added: what the clock reads
    after them. *)
Definition newest (pts : list SpamPoint) : Z :=
  match pts with
  | [] => 0
  | p :: rest => fold_left (λ now q, Z.max now (timestamp q)) rest (timestamp p)
  end.

(** The skew of the arrivals is bounded by the window: no point is more
    than [windowSize] older than a point added before it. Arrivals in
    order have no skew at all, however far apart they are. *)
Fixpoint bounded_skew (windowSize : Z) (pts : list SpamPoint) : Prop :=
  match pts with
  | [] => True
  | q :: rest =>
    Forall (λ p, timestamp q - windowSize ≤ timestamp p) rest
    ∧ bounded_skew windowSize rest
  end.

(** The window of a key after the calls for [added], when the skew is
    bounded: the points not older than [newest added - windowSize], in
    order of time, and the sum of their weights. *)
Record window_at (windowSize : Z) (added : list SpamPoint) (w : SpamWindowState)
  : Prop := {
  at_sorted : StronglySorted by_time (points w);
  at_total : total w = sum_weights (points w);
  at_points : points w ≡ₚ filter (in_window (newest added) windowSize) added;
}.

(** The invariant of a window after the calls for [added]. *)
Record window_ok (windowSize : Z) (added : list SpamPoint) (w : SpamWindowState)
  : Prop := {
  ok_sorted : StronglySorted by_time (points w);
  ok_total : total w = sum_weights (points w);
  ok_points : ∀ q, last added = Some q →
    points w ≡ₚ filter (in_window (timestamp q) windowSize) added;
  ok_empty : added = [] → points w = [];
}.

(** ** Lemmas *)

Lemma sum_weights_app l k : sum_weights (l ++ k) = sum_weights l + sum_weights k.
Proof. induction l as [|p l IH]; simpl; [done|]. rewrite IH. lia. Qed.

Lemma sum_weights_Permutation l k : l ≡ₚ k → sum_weights l = sum_weights k.
Proof. induction 1; simpl; lia. Qed.

Lemma insert_in_order_Permutation p pts : insert_in_order p pts ≡ₚ p :: pts.
Proof.
  induction pts as [|q rest IH]; simpl; [done|].
  destruct (timestamp p <? timestamp q); [done|].
  rewrite IH. apply Permutation_swap.
Qed.

Lemma insert_in_order_sorted p pts :
  StronglySorted by_time pts → StronglySorted by_time (insert_in_order p pts).
Proof.
  induction 1 as [|q rest Hs IH Hq]; simpl.
  { repeat constructor. }
  destruct (Z.ltb_spec (timestamp p) (timestamp q)) as [Hlt|Hge].
  - constructor; [by constructor|]. constructor; [unfold by_time; lia|].
    eapply Forall_impl; [exact Hq|]. unfold by_time. intros; simpl in *; lia.
  - constructor; [done|]. rewrite insert_in_order_Permutation.
    constructor; [exact Hge | done].
Qed.

Lemma filter_all {A} (P : A → Prop) `{∀ x, Decision (P x)} (l : list A) :
  Forall P l → filter P l = l.
Proof.
  induction 1 as [|x l Hx Hl IH]; [done|].
  rewrite filter_cons_True by done. by rewrite IH.
Qed.

Lemma filter_filter_weaker {A} (P Q : A → Prop)
    `{∀ x, Decision (P x)} `{∀ x, Decision (Q x)} (l : list A) :
  (∀ x, x ∈ l → P x → Q x) → filter P (filter Q l) = filter P l.
Proof.
  induction l as [|x l IH]; intros HPQ; [done|].
  assert (IH' : filter P (filter Q l) = filter P l).
  { apply IH. intros y Hy. apply HPQ. by right. }
  destruct (decide (Q x)) as [HQ|HQ].
  - rewrite (filter_cons_True Q) by done.
    destruct (decide (P x)).
    + rewrite !(filter_cons_True P) by done. by rewrite IH'.
    + rewrite !(filter_cons_False P) by done. done.
  - rewrite (filter_cons_False Q) by done.
    rewrite (filter_cons_False P); [done|].
    intros HP. apply HQ, HPQ; [by left | done].
Qed.

Lemma purge_spec cutoff pts : ∀ sum,
  StronglySorted by_time pts →
  points (purge cutoff pts sum) = filter (λ p, cutoff ≤ timestamp p) pts
  ∧ total (purge cutoff pts sum) - sum_weights (points (purge cutoff pts sum))
    = sum - sum_weights pts
  ∧ StronglySorted by_time (points (purge cutoff pts sum)).
Proof.
  induction pts as [|q rest IH]; intros sum Hs; simpl.
  { split; [done|]. split; [lia | constructor]. }
  inversion Hs as [|? ? Hrest Hq]; subst.
  destruct (Z.ltb_spec (timestamp q) cutoff) as [Hlt|Hge].
  - destruct (IH (sum - weight q) Hrest) as (Hp & Ht & Hsorted).
    rewrite filter_cons_False by lia. split; [done|]. split; [lia | done].
  - simpl. split; [|split; [lia | done]].
    rewrite filter_cons_True by done. f_equal.
    symmetry. apply filter_all.
    eapply Forall_impl; [exact Hq|]. unfold by_time. intros; simpl in *; lia.
Qed.

Lemma window_ok_empty windowSize : window_ok windowSize [] empty_window.
Proof. split; simpl; try done. constructor. Qed.

Lemma add_to_window_ok windowSize added w p :
  window_ok windowSize added w →
  (∀ q x, last added = Some q → x ∈ added →
          in_window (timestamp p) windowSize x →
          in_window (timestamp q) windowSize x) →
  window_ok windowSize (added ++ [p]) (add_to_window w p windowSize)
  ∧ total (add_to_window w p windowSize)
    = window_sum (timestamp p) windowSize (added ++ [p]).
Proof.
  intros [Hsorted Htotal Hpoints Hempty] Hstable.
  unfold add_to_window.
  destruct (purge_spec (timestamp p - windowSize) (insert_in_order p (points w))
              (total w + weight p) (insert_in_order_sorted p _ Hsorted))
    as (Hp & Ht & Hs).
  set (w' := purge _ _ _) in *.
  assert (Hsum : total w' = sum_weights (points w')).
  { rewrite (sum_weights_Permutation _ _ (insert_in_order_Permutation p _)) in Ht.
    simpl in Ht. lia. }
  assert (Hperm : points w'
                  ≡ₚ filter (in_window (timestamp p) windowSize) (added ++ [p])).
  { rewrite Hp. change (λ p0, timestamp p - windowSize ≤ timestamp p0)
      with (in_window (timestamp p) windowSize).
    rewrite insert_in_order_Permutation, filter_app.
    rewrite (Permutation_app_comm _ (filter _ [p])). simpl.
    change (p :: points w) with ([p] ++ points w).
    rewrite filter_app. apply Permutation_app; [done|].
    destruct (last added) as [q|] eqn:Hlast.
    - rewrite (Hpoints q eq_refl). rewrite filter_filter_weaker; [done|].
      intros x Hx. by apply Hstable.
    - apply last_None in Hlast. subst. by rewrite Hempty. }
  split.
  - split; try done.
    + intros q. rewrite last_snoc. by intros [= <-].
    + intros H. destruct added; discriminate.
  - rewrite Hsum. unfold window_sum. by apply sum_weights_Permutation.
Qed.

Lemma within_window_stable windowSize pts : ∀ added,
  within_window windowSize (added ++ pts) → purge_stable windowSize added pts.
Proof.
  induction pts as [|p rest IH]; intros added Hw; simpl; [done|]. split.
  - intros q x Hq Hx _. unfold in_window.
    assert (timestamp q - timestamp x ≤ windowSize); [|lia].
    apply Hw; apply elem_of_app; left; [|done].
    apply last_Some in Hq as [l' ->]. apply elem_of_app. right. by left.
  - apply IH. by rewrite <- app_assoc.
Qed.

Lemma in_order_stable windowSize pts : ∀ added,
  StronglySorted by_time (added ++ pts) → purge_stable windowSize added pts.
Proof.
  induction pts as [|p rest IH]; intros added Hs; simpl; [done|]. split.
  - intros q x Hq Hx. unfold in_window.
    assert (Hqp : by_time q p).
    { apply (StronglySorted_app_1_elem_of _ _ _ _ _ Hs); [|by left].
      apply last_Some in Hq as [l' ->]. apply elem_of_app. right. by left. }
    unfold by_time in Hqp. lia.
  - apply IH. by rewrite <- app_assoc.
Qed.

Lemma addPoint_window tracker tenant actor kind ts wt windowSize :
  addPoint tracker tenant actor kind ts wt windowSize
  = let w := add_to_window (default empty_window (tracker !! (tenant, actor, kind)))
               {| timestamp := ts; weight := wt |} windowSize in
    (total w, <[(tenant, actor, kind) := w]> tracker).
Proof. reflexivity. Qed.

Lemma addPoints_cons tracker tenant actor kind windowSize p rest :
  addPoints tracker tenant actor kind windowSize (p :: rest)
  = let w := add_to_window (default empty_window (tracker !! (tenant, actor, kind)))
               p windowSize in
    let next := addPoints (<[(tenant, actor, kind) := w]> tracker)
                  tenant actor kind windowSize rest in
    (total w :: next.1, next.2).
Proof.
  destruct p as [ts wt]. cbn [addPoints timestamp weight].
  unfold addPoint. cbv zeta.
  match goal with |- context [addPoints ?t _ _ _ _ rest] =>
    destruct (addPoints t tenant actor kind windowSize rest) end.
  reflexivity.
Qed.

Lemma addPoints_counts tenant actor kind windowSize pts : ∀ tracker added,
  window_ok windowSize added
    (default empty_window (tracker !! (tenant, actor, kind))) →
  purge_stable windowSize added pts →
  (addPoints tracker tenant actor kind windowSize pts).1
  = expected_counts windowSize added pts.
Proof.
  induction pts as [|p rest IH]; intros tracker added Hok Hstable; [done|].
  destruct Hstable as [Hstep Hrest].
  rewrite addPoints_cons. cbv zeta. simpl.
  destruct (add_to_window_ok windowSize added _ p Hok Hstep) as [Hok' Hcount].
  rewrite Hcount. f_equal. apply IH; [|done].
  by rewrite lookup_insert_eq.
Qed.

Lemma expected_counts_length windowSize pts : ∀ added,
  length (expected_counts windowSize added pts) = length pts.
Proof. induction pts as [|p rest IH]; intros added; simpl; [done|]. by rewrite IH. Qed.

Lemma expected_counts_lookup windowSize pts : ∀ added i p,
  pts !! i = Some p →
  expected_counts windowSize added pts !! i
  = Some (window_sum (timestamp p) windowSize (added ++ take (S i) pts)).
Proof.
  induction pts as [|q rest IH]; intros added i p Hi; [done|].
  destruct i as [|i]; simpl in *.
  - injection Hi as ->. by rewrite take_0.
  - rewrite (IH _ _ _ Hi). by rewrite <- app_assoc.
Qed.

Lemma window_sum_all now windowSize pts :
  (∀ p, p ∈ pts → now - timestamp p ≤ windowSize) →
  window_sum now windowSize pts = sum_weights pts.
Proof.
  intros H. unfold window_sum. rewrite filter_all; [done|].
  apply Forall_forall. intros p Hp. unfold in_window. specialize (H p Hp). lia.
Qed.

Lemma within_window_last windowSize pts :
  within_window windowSize pts →
  last (expected_counts windowSize [] pts) = (λ _, sum_weights pts) <$> last pts.
Proof.
  intros Hw. rewrite !last_lookup, expected_counts_length.
  destruct (pts !! pred (length pts)) as [p|] eqn:Hp; simpl.
  - rewrite (expected_counts_lookup _ _ _ _ _ Hp). simpl. f_equal.
    rewrite take_ge by lia. apply window_sum_all.
    intros q Hq. apply Hw; [|done]. by eapply list_elem_of_lookup_2.
  - apply lookup_ge_None. rewrite expected_counts_length.
    by apply lookup_ge_None in Hp.
Qed.

(** Points that all lie within one window, in whatever order: nothing
    expires, and every call returns the sum of all the weights so far. *)
Lemma addPoint_counts_one_window tracker tenant actor kind windowSize pts pts' :
  tracker !! (tenant, actor, kind) = None →
  within_window windowSize pts →
  pts' ≡ₚ pts →
  let counts := (addPoints tracker tenant actor kind windowSize pts').1 in
  (∀ i p, pts' !! i = Some p →
     counts !! i = Some (window_sum (timestamp p) windowSize (take (S i) pts')))
  ∧ length counts = length pts'
  ∧ last counts = last (addPoints tracker tenant actor kind windowSize pts).1.
Proof.
  intros Hfresh Hw Hperm counts.
  assert (Hw' : within_window windowSize pts').
  { intros p q Hp Hq. apply Hw; by rewrite <- Hperm. }
  assert (Hcounts : ∀ l, within_window windowSize l →
            (addPoints tracker tenant actor kind windowSize l).1
            = expected_counts windowSize [] l).
  { intros l Hl. apply addPoints_counts.
    - rewrite Hfresh. apply window_ok_empty.
    - by apply within_window_stable. }
  subst counts. rewrite (Hcounts _ Hw'), (Hcounts _ Hw). split; [|split].
  - intros i p Hi. by rewrite (expected_counts_lookup _ _ _ _ _ Hi).
  - apply expected_counts_length.
  - rewrite !within_window_last by done.
    rewrite (sum_weights_Permutation _ _ Hperm).
    destruct (last pts') as [p'|] eqn:H1, (last pts) as [p|] eqn:H2; simpl; try done.
    + apply last_None in H2. subst. apply Permutation_nil_r in Hperm. by subst.
    + apply last_None in H1. subst. symmetry in Hperm.
      apply Permutation_nil_r in Hperm. by subst.
Qed.

(** The same for arrivals in order, whatever their spread: here points
    expire and are purged. *)
Lemma addPoint_counts_in_order tracker tenant actor kind windowSize pts :
  tracker !! (tenant, actor, kind) = None →
  StronglySorted by_time pts →
  ∀ i p, pts !! i = Some p →
    (addPoints tracker tenant actor kind windowSize pts).1 !! i
    = Some (window_sum (timestamp p) windowSize (take (S i) pts)).
Proof.
  intros Hfresh Hs i p Hi. rewrite (addPoints_counts _ _ _ _ _ _ []).
  - by rewrite (expected_counts_lookup _ _ _ _ _ Hi).
  - rewrite Hfresh. apply window_ok_empty.
  - by apply in_order_stable.
Qed.

(** ** The clock, and arrivals with bounded skew *)

Lemma newest_snoc p added q :
  newest ((p :: added) ++ [q]) = Z.max (newest (p :: added)) (timestamp q).
Proof. simpl. by rewrite fold_left_app. Qed.

Lemma fold_max_ge (pts : list SpamPoint) : ∀ start,
  start ≤ fold_left (λ now q, Z.max now (timestamp q)) pts start
  ∧ Forall (λ q, timestamp q
                 ≤ fold_left (λ now q, Z.max now (timestamp q)) pts start) pts.
Proof.
  induction pts as [|q rest IH]; intros start; simpl; [split; [lia | constructor]|].
  destruct (IH (Z.max start (timestamp q))) as [Hge Hall].
  split; [lia|]. constructor; [lia | done].
Qed.

Lemma newest_ge pts q : q ∈ pts → timestamp q ≤ newest pts.
Proof.
  destruct pts as [|p rest]; [by intros ?%elem_of_nil|]. simpl.
  destruct (fold_max_ge rest (timestamp p)) as [Hge Hall].
  intros [->|Hq]%elem_of_cons; [done|].
  rewrite Forall_forall in Hall. by apply Hall.
Qed.

Lemma fold_max_attained (pts : list SpamPoint) : ∀ start,
  fold_left (λ now q, Z.max now (timestamp q)) pts start = start
  ∨ ∃ q, q ∈ pts
         ∧ timestamp q = fold_left (λ now q, Z.max now (timestamp q)) pts start.
Proof.
  induction pts as [|q rest IH]; intros start; simpl; [by left|].
  destruct (IH (Z.max start (timestamp q))) as [H|(x & Hx & H)].
  - rewrite H. destruct (Z.max_spec start (timestamp q)) as [[_ ->]|[_ ->]].
    + right. exists q. split; [by left | done].
    + by left.
  - right. exists x. split; [by right | done].
Qed.

Lemma newest_attained pts :
  pts ≠ [] → ∃ q, q ∈ pts ∧ timestamp q = newest pts.
Proof.
  destruct pts as [|p rest]; [done|]. intros _. simpl.
  destruct (fold_max_attained rest (timestamp p)) as [H|(x & Hx & H)].
  - exists p. split; [by left | done].
  - exists x. split; [by right | done].
Qed.

Lemma newest_Permutation pts pts' : pts ≡ₚ pts' → newest pts = newest pts'.
Proof.
  intros Hperm. destruct pts as [|p rest].
  { apply Permutation_nil_l in Hperm. by subst. }
  destruct pts' as [|p' rest'].
  { by apply Permutation_nil_r in Hperm. }
  destruct (newest_attained (p :: rest)) as (q & Hq & Hqn); [done|].
  destruct (newest_attained (p' :: rest')) as (q' & Hq' & Hqn'); [done|].
  assert (timestamp q ≤ newest (p' :: rest')).
  { apply newest_ge. by rewrite <- Hperm. }
  assert (timestamp q' ≤ newest (p :: rest)).
  { apply newest_ge. by rewrite Hperm. }
  lia.
Qed.

Lemma filter_filter_both {A} (P Q R : A → Prop)
    `{∀ x, Decision (P x)} `{∀ x, Decision (Q x)} `{∀ x, Decision (R x)}
    (l : list A) :
  (∀ x, x ∈ l → (P x ∧ Q x) ↔ R x) → filter P (filter Q l) = filter R l.
Proof.
  induction l as [|x l IH]; intros Heq; [done|].
  assert (IH' : filter P (filter Q l) = filter R l).
  { apply IH. intros y Hy. apply Heq. by right. }
  pose proof (Heq x (list_elem_of_here _ _)) as Hx.
  destruct (decide (Q x)) as [HQ|HQ].
  - rewrite (filter_cons_True Q) by done.
    destruct (decide (P x)) as [HP|HP].
    + rewrite (filter_cons_True P), (filter_cons_True R) by tauto. by rewrite IH'.
    + rewrite (filter_cons_False P), (filter_cons_False R) by tauto. done.
  - rewrite (filter_cons_False Q), (filter_cons_False R) by tauto. done.
Qed.

Lemma window_at_empty windowSize : window_at windowSize [] empty_window.
Proof. split; simpl; try done. constructor. Qed.

(** One call, when the new point is at most a window older than the
    points before it. *)
Lemma add_to_window_at windowSize added w p :
  0 ≤ windowSize →
  window_at windowSize added w →
  Forall (λ q, timestamp q - windowSize ≤ timestamp p) added →
  window_at windowSize (added ++ [p]) (add_to_window w p windowSize)
  ∧ total (add_to_window w p windowSize)
    = window_sum (newest (added ++ [p])) windowSize (added ++ [p]).
Proof.
  intros Hsize [Hsorted Htotal Hpoints] Hskew. unfold add_to_window.
  destruct (purge_spec (timestamp p - windowSize) (insert_in_order p (points w))
              (total w + weight p) (insert_in_order_sorted p _ Hsorted))
    as (Hp & Ht & Hs).
  set (w' := purge _ _ _) in *.
  assert (Hsum : total w' = sum_weights (points w')).
  { rewrite (sum_weights_Permutation _ _ (insert_in_order_Permutation p _)) in Ht.
    simpl in Ht. lia. }
  assert (Hperm : points w'
            ≡ₚ filter (in_window (newest (added ++ [p])) windowSize) (added ++ [p])).
  { rewrite Hp. change (λ p0, timestamp p - windowSize ≤ timestamp p0)
      with (in_window (timestamp p) windowSize).
    rewrite insert_in_order_Permutation, filter_app.
    rewrite (Permutation_app_comm _ (filter _ [p])).
    change (p :: points w) with ([p] ++ points w). rewrite filter_app.
    destruct added as [|a added].
    - simpl in Hpoints. apply Permutation_nil_r in Hpoints. rewrite Hpoints.
      reflexivity.
    - rewrite newest_snoc. set (now := newest (a :: added)) in *.
      destruct (newest_attained (a :: added)) as (q & Hq & Hqn); [done|].
      fold now in Hqn.
      assert (Hlate : now - windowSize ≤ timestamp p).
      { rewrite Forall_forall in Hskew. rewrite <- Hqn. by apply Hskew. }
      apply Permutation_app.
      + rewrite !filter_cons_True; [done| |]; unfold in_window; lia.
      + rewrite Hpoints.
        rewrite (filter_filter_both _ _
                   (in_window (Z.max now (timestamp p)) windowSize)); [done|].
        intros x _. unfold in_window. lia. }
  split.
  - by split.
  - rewrite Hsum. unfold window_sum. by apply sum_weights_Permutation.
Qed.

Lemma addPoints_clock tenant actor kind windowSize pts : ∀ tracker added,
  0 ≤ windowSize →
  window_at windowSize added
    (default empty_window (tracker !! (tenant, actor, kind))) →
  Forall (λ q, Forall (λ p, timestamp q - windowSize ≤ timestamp p) pts) added →
  bounded_skew windowSize pts →
  ∀ i p, pts !! i = Some p →
    (addPoints tracker tenant actor kind windowSize pts).1 !! i
    = Some (window_sum (newest (added ++ take (S i) pts)) windowSize
              (added ++ take (S i) pts)).
Proof.
  induction pts as [|p rest IH]; intros tracker added Hsize Hat Hadded Hskew i x Hi;
    [done|].
  destruct Hskew as [Hp Hrest].
  rewrite addPoints_cons. cbv zeta.
  destruct (add_to_window_at windowSize added _ p Hsize Hat) as [Hat' Hcount].
  { eapply Forall_impl; [exact Hadded|]. intros q Hq. by apply Forall_inv in Hq. }
  destruct i as [|i]; simpl in Hi |- *.
  - injection Hi as <-. by rewrite take_0, Hcount.
  - rewrite (cons_middle p added (take (S i) rest)), app_assoc.
    eapply (IH _ (added ++ [p]) Hsize); [| |exact Hrest|exact Hi].
    + by rewrite lookup_insert_eq.
    + apply Forall_app. split.
      * eapply Forall_impl; [exact Hadded|]. intros q Hq.
        by apply Forall_inv_tail in Hq.
      * by repeat constructor.
Qed.

Lemma addPoints_length tracker tenant actor kind windowSize pts :
  length (addPoints tracker tenant actor kind windowSize pts).1 = length pts.
Proof.
  revert tracker. induction pts as [|p rest IH]; intros tracker; [done|].
  rewrite addPoints_cons. cbv zeta. simpl. by rewrite IH.
Qed.

(** C5: when no point arrives more than a window [W] late (arrivals in
    order never do), every [addPoint] call returns the sum of the weights
    of the points added so far whose timestamp is at least [now - W],
    where [now] is the newest timestamp so far, the timestamp of the call
    itself when it is not late; points older than that have expired and
    are not counted. The count after the last call does not depend on the
    order in which the points were inserted. *)
Theorem addPoint_counts_window tracker tenant actor kind windowSize pts :
  tracker !! (tenant, actor, kind) = None →
  0 ≤ windowSize →
  bounded_skew windowSize pts →
  let counts := (addPoints tracker tenant actor kind windowSize pts).1 in
  length counts = length pts
  ∧ (∀ i p, pts !! i = Some p →
       counts !! i
       = Some (window_sum (newest (take (S i) pts)) windowSize (take (S i) pts))
       ∧ ((∀ q, q ∈ take i pts → timestamp q ≤ timestamp p) →
          newest (take (S i) pts) = timestamp p))
  ∧ (∀ pts', pts' ≡ₚ pts → bounded_skew windowSize pts' →
       last (addPoints tracker tenant actor kind windowSize pts').1
       = last counts).
Proof.
  intros Hfresh Hsize Hskew counts.
  assert (Hcounts : ∀ l, bounded_skew windowSize l → ∀ i p, l !! i = Some p →
            (addPoints tracker tenant actor kind windowSize l).1 !! i
            = Some (window_sum (newest (take (S i) l)) windowSize (take (S i) l))).
  { intros l Hl i p Hi.
    eapply (addPoints_clock tenant actor kind windowSize l tracker [] Hsize);
      [|constructor|exact Hl|exact Hi].
    rewrite Hfresh. apply window_at_empty. }
  assert (Hlast : ∀ l, bounded_skew windowSize l →
            last (addPoints tracker tenant actor kind windowSize l).1
            = (λ _, window_sum (newest l) windowSize l) <$> last l).
  { intros l Hl. rewrite !last_lookup, addPoints_length.
    destruct (l !! pred (length l)) as [p|] eqn:Hp; simpl.
    - rewrite (Hcounts l Hl _ _ Hp). by rewrite take_ge by lia.
    - apply lookup_ge_None. rewrite addPoints_length.
      by apply lookup_ge_None in Hp. }
  split; [apply addPoints_length|]. split.
  - intros i p Hi. split; [exact (Hcounts pts Hskew i p Hi)|]. intros Hnewest.
    rewrite (take_S_r _ _ _ Hi).
    destruct (take i pts) as [|a front] eqn:Hfront; [done|].
    rewrite newest_snoc.
    destruct (newest_attained (a :: front)) as (q & Hq & <-); [done|].
    specialize (Hnewest q Hq). lia.
  - intros pts' Hperm Hskew'. subst counts.
    rewrite (Hlast _ Hskew'), (Hlast _ Hskew).
    rewrite (newest_Permutation _ _ Hperm).
    assert (Hsum : window_sum (newest pts) windowSize pts'
                   = window_sum (newest pts) windowSize pts).
    { unfold window_sum. apply sum_weights_Permutation. by rewrite Hperm. }
    rewrite Hsum.
    destruct (last pts') as [p'|] eqn:H1, (last pts) as [p|] eqn:H2; simpl; try done.
    + apply last_None in H2. subst. apply Permutation_nil_r in Hperm. by subst.
    + apply last_None in H1. subst. symmetry in Hperm.
      apply Permutation_nil_r in Hperm. by subst.
Qed.

(** Five points with a window of 5 ms: the third call finds the first two
    points expired, the fourth point arrives 2 ms late, the fifth call
    finds everything before it expired. *)
Lemma addPoint_counts_window_witness :
  let pts := [{| timestamp := 0; weight := 1 |};
              {| timestamp := 3; weight := 1 |};
              {| timestamp := 10; weight := 1 |};
              {| timestamp := 8; weight := 2 |};
              {| timestamp := 16; weight := 1 |}] in
  (∅ : gmap Key SpamWindowState) !! ("guild", "user", "message_spam") = None
  ∧ 0 ≤ 5
  ∧ bounded_skew 5 pts
  ∧ (addPoints ∅ "guild" "user" "message_spam" 5 pts).1 = [1; 2; 1; 3; 1]
  ∧ (addPoints ∅ "guild" "user" "message_spam" 5 pts).1 !! 3%nat
    = Some (window_sum 10 5 (take 4 pts)).
Proof.
  intros pts.
  assert (Hfresh : (∅ : gmap Key SpamWindowState)
                   !! ("guild", "user", "message_spam") = None)
    by reflexivity.
  assert (Hsize : 0 ≤ 5) by lia.
  assert (Hskew : bounded_skew 5 pts).
  { unfold pts. simpl. repeat split; repeat constructor; simpl; lia. }
  split; [exact Hfresh|]. split; [exact Hsize|]. split; [exact Hskew|].
  split; [reflexivity|].
  exact (proj1 (proj1 (proj2 (addPoint_counts_window ∅ "guild" "user"
                                "message_spam" 5 pts Hfresh Hsize Hskew))
                  3%nat {| timestamp := 8; weight := 2 |} eq_refl)).
Defined.

Example addPoints_out_of_order :
  (addPoints ∅ "guild" "user" "message_spam" 5
     [{| timestamp := 100; weight := 1 |};
      {| timestamp := 103; weight := 2 |};
      {| timestamp := 101; weight := 1 |}]).1 = [1; 3; 4].
Proof. reflexivity. Qed.

Example addPoints_purges :
  (addPoints ∅ "guild" "user" "message_spam" 5
     [{| timestamp := 0; weight := 1 |};
      {| timestamp := 3; weight := 1 |};
      {| timestamp := 10; weight := 1 |}]).1 = [1; 2; 1].
Proof. reflexivity. Qed.

End SpamTracker.
